(** * Override store of the weatherio backend

    A shallow embedding of the data-access core of the Express application:
    the lazy connection guard [ensureDb] and the three helpers
    [getLatestOverride], [addOverride] and [removeOverride] that work on the
    [Override] collection.

    The collection is a list of documents in natural (insertion) order.  The
    Mongoose calls the helpers make are written out on that list:
    [findOne(..).sort({version: -1})], [updateMany], [findOneAndUpdate] with
    [{new: true}] and [save].  Every awaited call can reject; which ones do
    is an input of a run (the environment [Env]).

    [version] is a JavaScript Number holding an integer: a double, named
    here by the integer it stands for.  The sum of two of them is the exact
    sum rounded to the nearest double, ties to the even mantissa
    ([number_add]); up to 2^53 in magnitude that is the exact sum.  Mongoose
    adds [_id] and [__v] to a stored document; the helpers never read them
    and they are left out. *)

From Stdlib Require Import ZArith Lia.
From stdpp Require Import base list strings pretty.

Local Open Scope string_scope.
Local Open Scope list_scope.
Local Open Scope nat_scope.

(** ** Documents *)

(** The payload [newValues] has schema type [Object]: the store never looks
    inside it. *)
#[local] Unset Elimination Schemes.
Inductive json : Type :=
| JNull
| JBool (b : bool)
| JNum (n : Z)
| JStr (s : string)
| JArr (items : list json)
| JObj (fields : list (string * json)).
#[local] Set Elimination Schemes.

(** A document of the [Override] model, with the eight paths of
    [overrideSchema].  A stored document is told from the others by its
    position in the collection. *)
Record Override : Type := mkOverride {
  lat : string;
  lon : string;
  date : string;
  newValues : json;
  updatedAt : string;
  updatedBy : string;
  version : Z;
  active : bool
}.

(** The double nearest to the integer [z], as an integer: [z] itself while
    53 bits hold it, and otherwise [z] rounded to 53 leading bits, a tie
    going to the even mantissa. *)
Definition round_double (z : Z) : Z :=
  let a := Z.abs z in
  let e := (Z.log2 a - 52)%Z in
  if (e <=? 0)%Z then z
  else
    let ulp := (2 ^ e)%Z in
    let q := (a / ulp)%Z in
    let r := (a mod ulp)%Z in
    let half := (ulp / 2)%Z in
    let q' := if (r <? half)%Z then q
              else if (half <? r)%Z then (q + 1)%Z
              else if Z.even q then q else (q + 1)%Z in
    (Z.sgn z * (q' * ulp))%Z.

(** [x + y] on Numbers that hold integers. *)
Definition number_add (x y : Z) : Z := round_double (x + y).

(** The patch [{ $set: { active: b } }]. *)
Definition set_active (b : bool) (d : Override) : Override :=
  mkOverride (lat d) (lon d) (date d) (newValues d) (updatedAt d)
             (updatedBy d) (version d) b.

(** The two equality filters of the helpers: [{lat, lon, date, updatedBy}],
    with [active: true] added or not. *)
Record Filter : Type := mkFilter {
  f_lat : string;
  f_lon : string;
  f_date : string;
  f_active : option bool;
  f_updatedBy : string
}.

Definition matches (f : Filter) (d : Override) : Prop :=
  lat d = f_lat f ∧ lon d = f_lon f ∧ date d = f_date f ∧
  updatedBy d = f_updatedBy f ∧
  match f_active f with Some b => active d = b | None => True end.

#[global] Instance matches_dec f d : Decision (matches f d).
Proof. unfold matches. destruct (f_active f); apply _. Defined.

(** The filter [{ lat, lon, date, updatedBy: userEmail }]. *)
Definition by_key (la lo da userEmail : string) : Filter :=
  mkFilter la lo da None userEmail.

(** The filter [{ lat, lon, date, active: true, updatedBy: userEmail }]. *)
Definition by_key_active (la lo da userEmail : string) : Filter :=
  mkFilter la lo da (Some true) userEmail.

(** ** The collection *)

(** Of a list of documents, the one a descending sort on [version] puts
    first; among equal versions the earlier document stays in front. *)
Fixpoint top_version (l : list Override) : option Override :=
  match l with
  | [] => None
  | d :: l' =>
      match top_version l' with
      | None => Some d
      | Some e => if (version d <? version e)%Z then Some e else Some d
      end
  end.

(** [findOne(f).sort({ version: -1 })]. *)
Definition findOne_sort_version (f : Filter) (coll : list Override)
  : option Override :=
  top_version (filter (matches f) coll).

(** [updateMany(f, patch)]: every matching document is patched. *)
Definition updateMany (f : Filter) (patch : Override → Override)
    (coll : list Override) : list Override :=
  (λ d, if decide (matches f d) then patch d else d) <$> coll.

(** [findOneAndUpdate(f, patch, { new: true })]: the first matching document
    in natural order is patched and returned as patched; nothing changes and
    [null] is returned when none matches. *)
Fixpoint findOneAndUpdate (f : Filter) (patch : Override → Override)
    (coll : list Override) : option Override * list Override :=
  match coll with
  | [] => (None, [])
  | d :: coll' =>
      if decide (matches f d) then (Some (patch d), patch d :: coll')
      else let '(r, coll'') := findOneAndUpdate f patch coll' in
           (r, d :: coll'')
  end.

(** [doc.save()] of a new document. *)
Definition insert_doc (d : Override) (coll : list Override) : list Override :=
  coll ++ [d].

(** ** The connection guard *)

Inductive Settled : Type :=
| Pending
| Fulfilled (v : bool)
| Rejected (err : string).

Record ConnectOptions : Type := mkOptions {
  serverSelectionTimeoutMS : Z;
  connectTimeoutMS : Z
}.

(** One call of [mongoose.connect]; [settled] is the state of the promise
    [connect(..).then(..).catch(..)] built on it. *)
Record Attempt : Type := mkAttempt {
  uri : string;
  options : ConnectOptions;
  settled : Settled
}.

(** The module-level state the guard works on.  A promise is named by the
    index of its attempt in [attempts]; [connectingPromise] holds such a
    name or [null]. *)
Record Conn : Type := mkConn {
  MONGO_URI : option string;
  readyState : nat;
  connectingPromise : option nat;
  attempts : list Attempt
}.

(** Process start: [let connectingPromise = null], nothing connected. *)
Definition init_conn (u : option string) : Conn := mkConn u 0 None [].

(** [!MONGO_URI]: undefined or the empty string. *)
Definition unset (u : option string) : bool :=
  match u with
  | None => true
  | Some s => bool_decide (s = "")
  end.

(** What a call of [ensureDb] hands to its caller: an exception, the value
    [true], or a promise that follows the cached promise [p].  The body has
    no [await], so a call runs to its end before anything else happens. *)
Inductive Returned : Type :=
| Throws (err : string)
| ReturnsTrue
| Awaits (p : nat).

Definition ensureDb (c : Conn) : Returned * Conn :=
  if unset (MONGO_URI c) then (Throws "MONGO_URI not set", c)
  else if bool_decide (readyState c = 1) then (ReturnsTrue, c)
  else match connectingPromise c with
       | Some p => (Awaits p, c)
       | None =>
           let p := length (attempts c) in
           let a := mkAttempt (default "" (MONGO_URI c))
                              (mkOptions 3000 3000) Pending in
           (Awaits p,
            mkConn (MONGO_URI c) (readyState c) (Some p) (attempts c ++ [a]))
       end.

(** The handler of [.then]: log and [return true]. *)
Definition onConnected (c : Conn) : (string + bool) * Conn :=
  (inr true, c).

(** The handler of [.catch]: log, clear the guard, [throw err]. *)
Definition onConnectFailed (err : string) (c : Conn)
  : (string + bool) * Conn :=
  (inl err, mkConn (MONGO_URI c) (readyState c) None (attempts c)).

Definition promise_state (c : Conn) (p : nat) : Settled :=
  default Pending (settled <$> attempts c !! p).

Definition settle (p : nat) (r : string + bool) (c : Conn) : Conn :=
  let s := match r with inl e => Rejected e | inr v => Fulfilled v end in
  mkConn (MONGO_URI c) (readyState c) (connectingPromise c)
         (alter (λ a, mkAttempt (uri a) (options a) s) p (attempts c)).

Definition set_readyState (n : nat) (c : Conn) : Conn :=
  mkConn (MONGO_URI c) n (connectingPromise c) (attempts c).

(** The driver reports that attempt [p] has connected: it has set
    [readyState] to 1, the [.then] handler runs, its result settles the
    promise. *)
Definition resolve_attempt (p : nat) (c : Conn) : (string + bool) * Conn :=
  let '(r, c') := onConnected (set_readyState 1 c) in (r, settle p r c').

(** The driver reports that attempt [p] has failed with [err]: the [.catch]
    handler runs, its result settles the promise. *)
Definition reject_attempt (p : nat) (err : string) (c : Conn)
  : (string + bool) * Conn :=
  let '(r, c') := onConnectFailed err c in (r, settle p r c').

(** What happens to the connection state, one event at a time: a request
    calls [ensureDb]; the driver reports on the pending attempt [p]; the
    driver changes [readyState] later on (a dropped connection). *)
Inductive Event : Type :=
| CallEnsureDb
| Connected (p : nat)
| ConnectFailed (p : nat) (err : string)
| ReadyState (n : nat).

Definition step (e : Event) (c : Conn) : Conn :=
  match e with
  | CallEnsureDb => (ensureDb c).2
  | Connected p =>
      match settled <$> attempts c !! p with
      | Some Pending => (resolve_attempt p c).2
      | _ => c
      end
  | ConnectFailed p err =>
      match settled <$> attempts c !! p with
      | Some Pending => (reject_attempt p err c).2
      | _ => c
      end
  | ReadyState n => set_readyState n c
  end.

Definition run_events (es : list Event) (c : Conn) : Conn :=
  foldl (λ c e, step e c) c es.

(** What a caller that awaits the value [r] of [ensureDb] sees in state [c]:
    nothing yet, an exception, or a value. *)
Definition awaited (c : Conn) (r : Returned) : option (string + bool) :=
  match r with
  | Throws e => Some (inl e)
  | ReturnsTrue => Some (inr true)
  | Awaits p =>
      match promise_state c p with
      | Pending => None
      | Fulfilled v => Some (inr v)
      | Rejected e => Some (inl e)
      end
  end.

(** ** The helpers *)

(** The awaited calls on the collection. *)
Inductive DbCall : Type :=
| FindOne
| UpdateMany
| FindOneAndUpdate
| Save.

#[global] Instance DbCall_eq_dec : EqDecision DbCall.
Proof. solve_decision. Defined.

(** What one run of a helper gets from outside: how a connection attempt it
    has to wait for ends ([None]: it connects), which collection calls
    reject and with what, and the clock read by [new Date().toISOString()]. *)
Record Env : Type := mkEnv {
  connect_error : option string;
  db_error : DbCall → option string;
  now : string
}.

Record World : Type := mkWorld {
  conn : Conn;
  overrides : list Override
}.

(** An async function body: it reads the environment, changes the world and
    ends in an exception or a value. *)
Definition Async (A : Type) : Type := Env → World → (string + A) * World.

#[global] Instance Async_ret : MRet Async := λ A a _ w, (inr a, w).

#[global] Instance Async_bind : MBind Async := λ A B k m env w,
  match m env w with
  | (inl e, w') => (inl e, w')
  | (inr a, w') => k a env w'
  end.

(** Reading the environment of the run. *)
Definition ask : Async Env := λ env w, (inr env, w).

(** [await ensureDb()] inside a helper that runs alone: when the promise it
    gets is pending, the environment settles it before the helper goes on. *)
Definition await_ensureDb : Async bool := λ env w,
  let '(r, c) := ensureDb (conn w) in
  let '(res, c') :=
    match r with
    | Throws e => (inl e, c)
    | ReturnsTrue => (inr true, c)
    | Awaits p =>
        match promise_state c p with
        | Pending =>
            match connect_error env with
            | None => resolve_attempt p c
            | Some err => reject_attempt p err c
            end
        | Fulfilled v => (inr v, c)
        | Rejected e => (inl e, c)
        end
    end in
  (res, mkWorld c' (overrides w)).

(** A call on the collection: it rejects when the environment says so and
    otherwise applies [f] to the collection. *)
Definition db_call {A} (call : DbCall)
    (f : list Override → A * list Override) : Async A := λ env w,
  match db_error env call with
  | Some e => (inl e, w)
  | None => let '(a, coll) := f (overrides w) in
            (inr a, mkWorld (conn w) coll)
  end.

Definition Override_findOne_sort (f : Filter) : Async (option Override) :=
  db_call FindOne (λ coll, (findOne_sort_version f coll, coll)).

Definition Override_updateMany (f : Filter) (patch : Override → Override)
  : Async unit :=
  db_call UpdateMany (λ coll, (tt, updateMany f patch coll)).

Definition Override_findOneAndUpdate (f : Filter)
    (patch : Override → Override) : Async (option Override) :=
  db_call FindOneAndUpdate (findOneAndUpdate f patch).

Definition Override_save (d : Override) : Async Override :=
  db_call Save (λ coll, (d, insert_doc d coll)).

Definition getLatestOverride (la lo da userEmail : string)
  : Async (option Override) :=
  _ ← await_ensureDb;
  Override_findOne_sort (by_key_active la lo da userEmail).

Definition addOverride (la lo da : string) (values : json)
    (userEmail : string) : Async Override :=
  _ ← await_ensureDb;
  latest ← Override_findOne_sort (by_key la lo da userEmail);
  let newVersion :=
    match latest with Some l => number_add (version l) 1 | None => 1%Z end in
  _ ← Override_updateMany (by_key la lo da userEmail) (set_active false);
  env ← ask;
  let newOverride :=
    mkOverride la lo da values (now env) userEmail newVersion true in
  Override_save newOverride.

Definition removeOverride (la lo da userEmail : string)
  : Async (option Override) :=
  _ ← await_ensureDb;
  Override_findOneAndUpdate (by_key_active la lo da userEmail)
                            (set_active false).

(** ** Sequences of calls *)

Inductive Call : Type :=
| GetLatest (la lo da userEmail : string)
| Add (la lo da : string) (values : json) (userEmail : string)
| Remove (la lo da userEmail : string).

(** What a helper resolves to: a document, or a document or [null]. *)
Inductive Reply : Type :=
| Doc (d : Override)
| DocOrNull (o : option Override).

Definition call (c : Call) : Async Reply :=
  match c with
  | GetLatest la lo da u => o ← getLatestOverride la lo da u; mret (DocOrNull o)
  | Add la lo da values u => d ← addOverride la lo da values u; mret (Doc d)
  | Remove la lo da u => o ← removeOverride la lo da u; mret (DocOrNull o)
  end.

(** The calls run one after the other, each to its end and each in its own
    environment; a call that throws does not stop the later ones. *)
Fixpoint run (cs : list (Call * Env)) (w : World)
  : list (string + Reply) * World :=
  match cs with
  | [] => ([], w)
  | (c, env) :: cs' =>
      let '(r, w') := call c env w in
      let '(rs, w'') := run cs' w' in
      (r :: rs, w'')
  end.

(** ** Conditions on a run *)

(** The [await ensureDb()] at the head of a helper comes back without an
    exception. *)
Definition db_ready (env : Env) (w : World) : Prop :=
  ∃ v, (await_ensureDb env w).1 = inr v.

(** No awaited call of the run rejects. *)
Definition fault_free (env : Env) : Prop :=
  connect_error env = None ∧ ∀ c, db_error env c = None.

(** A connection state in which a connection exists or can be asked for:
    the URI is set, and the connection is up or no promise is cached. *)
Definition connectable (c : Conn) : Prop :=
  unset (MONGO_URI c) = false ∧
  (readyState c = 1 ∨ connectingPromise c = None).

(** The documents of one key, and the active ones among them. *)
Definition of_key (la lo da u : string) (coll : list Override)
  : list Override :=
  filter (matches (by_key la lo da u)) coll.

Definition active_of_key (la lo da u : string) (coll : list Override)
  : list Override :=
  filter (matches (by_key_active la lo da u)) coll.

(** The version [addOverride] gives to the document it inserts:
    [latest ? latest.version + 1 : 1]. *)
Definition next_version (la lo da u : string) (coll : list Override) : Z :=
  match findOne_sort_version (by_key la lo da u) coll with
  | Some l => number_add (version l) 1
  | None => 1%Z
  end.

(** The document [addOverride] builds once it knows [latest]. *)
Definition newOverride (la lo da : string) (values : json) (u : string)
    (env : Env) (coll : list Override) : Override :=
  mkOverride la lo da values (now env) u (next_version la lo da u coll) true.

(** Calls of [addOverride] on one key, one payload and one environment per
    call. *)
Definition add_calls (la lo da u : string) (args : list (json * Env))
  : list (Call * Env) :=
  (λ a, (Add la lo da a.1 u, a.2)) <$> args.

(** How a stored document may differ later on: in [active] alone, and
    never from false to true. *)
Definition evolves (d d' : Override) : Prop :=
  d' = set_active (active d') d ∧ (active d = false → active d' = false).

(** An attempt that has failed, and one that is under way or has connected. *)
Definition rejected (a : Attempt) : Prop := ∃ e, settled a = Rejected e.

Definition live (a : Attempt) : Prop :=
  settled a = Pending ∨ settled a = Fulfilled true.

#[global] Instance Settled_eq_dec : EqDecision Settled.
Proof. solve_decision. Defined.

#[global] Instance live_dec a : Decision (live a).
Proof. unfold live. apply _. Defined.

(** The timeouts [ensureDb] passes to [mongoose.connect]. *)
Definition timeouts_3000 (a : Attempt) : Prop :=
  serverSelectionTimeoutMS (options a) = 3000%Z ∧
  connectTimeoutMS (options a) = 3000%Z.

(** What holds of the guard in every state the events lead to: every
    attempt but the one [connectingPromise] names has failed; that one is
    the last and is under way or has connected. *)
Definition guard_inv (c : Conn) : Prop :=
  Forall timeouts_3000 (attempts c) ∧
  match connectingPromise c with
  | None => Forall rejected (attempts c)
  | Some p => ∃ older a, attempts c = older ++ [a] ∧ p = length older ∧
                         Forall rejected older ∧ live a
  end.

(** ** Sample data *)

Definition env_ok : Env :=
  mkEnv None (λ _, None) "2024-01-01T00:00:00.000Z".

Definition world_start : World :=
  mkWorld (init_conn (Some "mongodb://db.example/weatherio")) [].

Definition doc (u : string) (v : Z) (a : bool) : Override :=
  mkOverride "12.0" "77.0" "2024-01-01" JNull "2023-12-31T00:00:00.000Z"
             u v a.

(** A collection in which the key of a@x.com has versions 1 to 3, the second
    and the third active, next to a document of b@x.com. *)
Definition world_two_active : World :=
  mkWorld (init_conn (Some "mongodb://db.example/weatherio"))
          [doc "a@x.com" 1 false; doc "a@x.com" 2 true;
           doc "b@x.com" 9 true; doc "a@x.com" 3 true].

(** ** Invariants of the collection *)

(** The versions of the documents of a key, in natural order. *)
Definition versions_of (la lo da u : string) (coll : list Override)
  : list Z :=
  version <$> of_key la lo da u coll.

(** Every key has at most one active document. *)
Definition single_active (coll : list Override) : Prop :=
  ∀ la lo da u, length (active_of_key la lo da u coll) ≤ 1.

(** The documents of every key carry the versions 1, 2, .. in natural
    order. *)
Definition versioned (coll : list Override) : Prop :=
  ∀ la lo da u,
    versions_of la lo da u coll =
    Z.of_nat <$> seq 1 (length (of_key la lo da u coll)).

(** The calls of a run that resolved to a new document. *)
Definition is_insert (r : string + Reply) : bool :=
  match r with inr (Doc _) => true | _ => false end.

Definition inserted (rs : list (string + Reply)) : nat :=
  length (filter (λ r, is_insert r = true) rs).

(** ** Users *)

(** A document of the [User] model, with the three paths of [userSchema]. *)
Record User : Type := mkUser {
  email : string;
  password : string;
  createdAt : string
}.

(** [User.findOne({ email })]: the first user with that email, or [null]. *)
Definition User_findOne (em : string) (us : list User) : option User :=
  head (filter (λ x, email x = em) us).

(** The state the routes work on: the connection and the two collections. *)
Record App : Type := mkApp {
  world : World;
  users : list User
}.

(** What a request handler gets from outside, besides [Env]: the hash
    [bcrypt.hash(password, 10)] comes to in this run (its salt is random),
    and the verdict of [bcrypt.compare]. *)
Record ReqEnv : Type := mkReqEnv {
  base : Env;
  bcrypt_hash : string → string;
  bcrypt_compare : string → string → bool
}.

(** ** Responses *)

(** The JSON bodies the routes send. *)
Inductive Body : Type :=
| JsonError (error : string)
| JsonUser (message : string) (user_email : string)
| JsonOverride (d : Override)
| JsonEmpty
| JsonRemoved (removed : bool).

Record Response : Type := mkResponse {
  status : nat;
  body : Body
}.

(** ** The routes *)

(** The body of a handler inside its [try]: it ends in a response or in an
    exception. *)
Definition Handler (A : Type) : Type := ReqEnv → App → (string + A) * App.

#[global] Instance Handler_ret : MRet Handler := λ A a _ st, (inr a, st).

#[global] Instance Handler_bind : MBind Handler := λ A B k m env st,
  match m env st with
  | (inl e, st') => (inl e, st')
  | (inr a, st') => k a env st'
  end.

(** A helper or [ensureDb] awaited inside a handler. *)
Definition on_world {A} (m : Async A) : Handler A := λ env st,
  let '(r, w) := m (base env) (world st) in (r, mkApp w (users st)).

(** An awaited call on the [User] collection. *)
Definition users_call {A} (call : DbCall)
    (f : list User → A * list User) : Handler A := λ env st,
  match db_error (base env) call with
  | Some e => (inl e, st)
  | None => let '(a, us) := f (users st) in (inr a, mkApp (world st) us)
  end.

Definition hash_password (pw : string) : Handler string := λ env st,
  (inr (bcrypt_hash env pw), st).

Definition compare_password (pw hashed : string) : Handler bool := λ env st,
  (inr (bcrypt_compare env pw hashed), st).

Definition clock : Handler string := λ env st, (inr (now (base env)), st).

(** [try { .. } catch (err) { res.status(500).json({ error }) }]. *)
Definition catching (error : string) (h : Handler Response)
  : ReqEnv → App → Response * App := λ env st,
  match h env st with
  | (inr r, st') => (r, st')
  | (inl _, st') => (mkResponse 500 (JsonError error), st')
  end.

(** [POST /register], for a body whose [email] and [password] are strings
    or absent.  [User.create] is reached only when no stored user has the
    email, so in a run of one request after the other the unique index on
    [email] never rejects it. *)
Definition post_register (em pw : option string)
  : ReqEnv → App → Response * App :=
  catching "registration-failed" (
    if unset em || unset pw
    then mret (mkResponse 400 (JsonError "Email and password required"))
    else
      let em := default "" em in
      let pw := default "" pw in
      _ ← on_world await_ensureDb;
      existing ← users_call FindOne (λ us, (User_findOne em us, us));
      match existing with
      | Some _ => mret (mkResponse 400 (JsonError "User already exists"))
      | None =>
          hashed ← hash_password pw;
          t ← clock;
          let user := mkUser em hashed t in
          _ ← users_call Save (λ us, (tt, us ++ [user]));
          mret (mkResponse 201
                  (JsonUser "Registration successful" (email user)))
      end).

(** [POST /login], for a body whose [email] and [password] are strings. *)
Definition post_login (em pw : string) : ReqEnv → App → Response * App :=
  catching "login-failed" (
    _ ← on_world await_ensureDb;
    user ← users_call FindOne (λ us, (User_findOne em us, us));
    match user with
    | None => mret (mkResponse 401 (JsonError "Invalid email or password"))
    | Some x =>
        ok ← compare_password pw (password x);
        if ok : bool
        then mret (mkResponse 200 (JsonUser "Login successful" (email x)))
        else mret (mkResponse 401 (JsonError "Invalid email or password"))
    end).

(** [GET /override], [POST /override] and [DELETE /override], for requests
    whose parameters are strings. *)
Definition get_override (la lo da em : string)
  : ReqEnv → App → Response * App :=
  catching "get-override-failed" (
    override ← on_world (getLatestOverride la lo da em);
    mret (mkResponse 200 match override with
                         | Some d => JsonOverride d
                         | None => JsonEmpty
                         end)).

Definition post_override (la lo da : string) (values : json) (em : string)
  : ReqEnv → App → Response * App :=
  catching "add-override-failed" (
    newEntry ← on_world (addOverride la lo da values em);
    mret (mkResponse 201 (JsonOverride newEntry))).

Definition delete_override (la lo da em : string)
  : ReqEnv → App → Response * App :=
  catching "remove-override-failed" (
    removed ← on_world (removeOverride la lo da em);
    mret (mkResponse 200 (JsonRemoved match removed with
                                      | Some _ => true
                                      | None => false
                                      end))).

(** ** The cold-start log of the Lambda entry point *)

(** A JavaScript string is the list of its UTF-16 code units, which is
    what [slice] and [length] count.  [js s] is the string an ASCII literal
    [s] of the source denotes. *)
Definition js (s : string) : list N :=
  Ascii.N_of_ascii <$> String.list_ascii_of_string s.

(** [raw ? `${raw.slice(0, 12)}... (len=${raw.length})` : '(missing)'], with
    [raw = process.env.MONGO_URI || '']. *)
Definition masked (env_uri : option (list N)) : list N :=
  let raw := default [] env_uri in
  if bool_decide (raw = []) then js "(missing)"
  else take 12 raw ++ js "... (len=" ++ js (pretty (length raw)) ++ js ")".

(** ** More sample data *)

Definition req_ok : ReqEnv :=
  mkReqEnv env_ok (λ pw, "$2a$10$" +:+ pw)%string
           (λ pw hashed, bool_decide (hashed = "$2a$10$" +:+ pw)%string).

Definition app_start : App := mkApp world_start [].

(** A collection whose one document of the key has version 2^53. *)
Definition world_2_53 : World :=
  mkWorld (init_conn (Some "mongodb://db.example/weatherio"))
          [doc "a@x.com" 9007199254740992 true].

(** * Properties *)

(** ** The connection inside a helper *)

Lemma await_ensureDb_overrides env w :
  overrides (await_ensureDb env w).2 = overrides w.
Proof.
  unfold await_ensureDb.
  destruct (ensureDb (conn w)) as [r c].
  by destruct (match r with Throws _ => _ | _ => _ end).
Qed.

Lemma connectable_ready env w :
  connectable (conn w) → connect_error env = None →
  db_ready env w ∧ connectable (conn (await_ensureDb env w).2).
Proof.
  intros [Huri Hst] Hce. unfold db_ready, await_ensureDb, ensureDb.
  rewrite Huri.
  case_bool_decide as Hrs.
  - simpl. split; [by eexists|]. split; [done|by left].
  - destruct Hst as [Hst|Hst]; [done|]. rewrite Hst.
    unfold promise_state; simpl.
    rewrite lookup_app_r, Nat.sub_diag by lia. simpl.
    rewrite Hce. simpl.
    split; [by eexists|]. split; [done|by left].
Qed.

Lemma init_conn_connectable u : u ≠ "" → connectable (init_conn (Some u)).
Proof.
  intros Hu. split; [|by right]. simpl. by rewrite bool_decide_eq_false.
Qed.

(** ** The calls on the collection *)

Lemma top_version_None l : top_version l = None → l = [].
Proof.
  destruct l as [|d l]; [done|]. simpl.
  destruct (top_version l); [|done]. by case_match.
Qed.

Lemma top_version_Some l d :
  top_version l = Some d →
  d ∈ l ∧ ∀ e, e ∈ l → (version e ≤ version d)%Z.
Proof.
  revert d. induction l as [|x l IH]; intros d; simpl; [done|].
  destruct (top_version l) as [t|] eqn:Ht.
  - destruct (IH t eq_refl) as [Hin Hmax].
    destruct (Z.ltb_spec (version x) (version t)); intros [= <-].
    + split; [by right|]. intros e [->|He]%elem_of_cons; [lia|auto].
    + split; [by left|]. intros e [->|He]%elem_of_cons; [lia|].
      specialize (Hmax e He). lia.
  - apply top_version_None in Ht as ->. intros [= <-].
    split; [by left|]. by intros e ->%list_elem_of_singleton.
Qed.

Lemma filter_nil_not_elem_of f coll d :
  filter (matches f) coll = [] → d ∈ coll → ¬ matches f d.
Proof.
  intros Hnil Hin Hm.
  assert (d ∈ filter (matches f) coll) as Hd by by apply list_elem_of_filter.
  rewrite Hnil in Hd. by apply elem_of_nil in Hd.
Qed.

Lemma findOne_sort_version_None f coll :
  findOne_sort_version f coll = None ↔ filter (matches f) coll = [].
Proof.
  unfold findOne_sort_version. split.
  - apply top_version_None.
  - by intros ->.
Qed.

Lemma findOne_sort_version_Some f coll d :
  findOne_sort_version f coll = Some d →
  d ∈ coll ∧ matches f d ∧
  ∀ e, e ∈ coll → matches f e → (version e ≤ version d)%Z.
Proof.
  unfold findOne_sort_version. intros [Hin Hmax]%top_version_Some.
  apply list_elem_of_filter in Hin as [Hm Hin].
  split; [done|]. split; [done|].
  intros e He Hme. apply Hmax. by apply list_elem_of_filter.
Qed.

Lemma updateMany_lookup f patch coll i :
  updateMany f patch coll !! i =
  (λ d, if decide (matches f d) then patch d else d) <$> coll !! i.
Proof. unfold updateMany. apply list_lookup_fmap. Qed.

Lemma updateMany_length f patch coll :
  length (updateMany f patch coll) = length coll.
Proof. unfold updateMany. apply length_fmap. Qed.

Lemma matches_active_key la lo da u d :
  matches (by_key_active la lo da u) d ↔
  matches (by_key la lo da u) d ∧ active d = true.
Proof. unfold matches; simpl. tauto. Qed.

Lemma matches_set_active la lo da u b d :
  matches (by_key la lo da u) (set_active b d) ↔
  matches (by_key la lo da u) d.
Proof. unfold matches; simpl. tauto. Qed.

Lemma updateMany_no_active la lo da u coll :
  active_of_key la lo da u
    (updateMany (by_key la lo da u) (set_active false) coll) = [].
Proof.
  unfold active_of_key, updateMany.
  induction coll as [|d coll IH]; [done|]. rewrite fmap_cons.
  rewrite filter_cons_False; [done|].
  rewrite matches_active_key. intros [Hm Ha].
  destruct (decide (matches (by_key la lo da u) d)) as [Hd|Hd].
  - done.
  - by apply Hd.
Qed.

Lemma findOneAndUpdate_None f patch coll coll' :
  findOneAndUpdate f patch coll = (None, coll') →
  coll' = coll ∧ filter (matches f) coll = [].
Proof.
  revert coll'. induction coll as [|d coll IH]; intros coll'; simpl.
  - by intros [= <-].
  - destruct (decide (matches f d)) as [Hd|Hd]; [done|].
    destruct (findOneAndUpdate f patch coll) as [r c'].
    intros [= -> <-]. destruct (IH c' eq_refl) as [-> Hf].
    split; [done|]. by rewrite filter_cons_False.
Qed.

Lemma findOneAndUpdate_Some f patch coll r coll' :
  findOneAndUpdate f patch coll = (Some r, coll') →
  ∃ i d, coll !! i = Some d ∧ matches f d ∧
         filter (matches f) (take i coll) = [] ∧
         r = patch d ∧ coll' = <[i := patch d]> coll.
Proof.
  revert coll'. induction coll as [|d coll IH]; intros coll'; simpl; [done|].
  destruct (decide (matches f d)) as [Hd|Hd].
  - intros [= <- <-]. by exists 0, d.
  - destruct (findOneAndUpdate f patch coll) as [r' c'].
    intros [= -> <-].
    destruct (IH c' eq_refl) as (i & e & Hi & He & Hbefore & -> & ->).
    exists (S i), e. simpl. rewrite filter_cons_False by done. done.
Qed.

(** ** The helpers, written out *)

Lemma getLatestOverride_eq la lo da u env w :
  getLatestOverride la lo da u env w =
  match await_ensureDb env w with
  | (inl e, w1) => (inl e, w1)
  | (inr _, w1) =>
      match db_error env FindOne with
      | Some e => (inl e, w1)
      | None =>
          (inr (findOne_sort_version (by_key_active la lo da u) (overrides w1)),
           w1)
      end
  end.
Proof.
  unfold getLatestOverride, mbind, Async_bind, Override_findOne_sort, db_call.
  destruct (await_ensureDb env w) as [[e|v] [c coll]]; [done|]. simpl.
  by destruct (db_error env FindOne).
Qed.

Lemma removeOverride_eq la lo da u env w :
  removeOverride la lo da u env w =
  match await_ensureDb env w with
  | (inl e, w1) => (inl e, w1)
  | (inr _, w1) =>
      match db_error env FindOneAndUpdate with
      | Some e => (inl e, w1)
      | None =>
          let '(r, coll) :=
            findOneAndUpdate (by_key_active la lo da u) (set_active false)
                             (overrides w1) in
          (inr r, mkWorld (conn w1) coll)
      end
  end.
Proof.
  unfold removeOverride, mbind, Async_bind, Override_findOneAndUpdate, db_call.
  by destruct (await_ensureDb env w) as [[e|v] [c coll]].
Qed.

Lemma addOverride_eq la lo da values u env w :
  addOverride la lo da values u env w =
  match await_ensureDb env w with
  | (inl e, w1) => (inl e, w1)
  | (inr _, w1) =>
      match db_error env FindOne with
      | Some e => (inl e, w1)
      | None =>
          match db_error env UpdateMany with
          | Some e => (inl e, w1)
          | None =>
              let coll := updateMany (by_key la lo da u) (set_active false)
                                     (overrides w1) in
              match db_error env Save with
              | Some e => (inl e, mkWorld (conn w1) coll)
              | None =>
                  let d := newOverride la lo da values u env (overrides w1) in
                  (inr d, mkWorld (conn w1) (coll ++ [d]))
              end
          end
      end
  end.
Proof.
  unfold addOverride, mbind, Async_bind, Override_findOne_sort,
    Override_updateMany, Override_save, ask, db_call, insert_doc, newOverride.
  destruct (await_ensureDb env w) as [[e|v] [c coll]]; [done|]. simpl.
  destruct (db_error env FindOne); [done|].
  destruct (db_error env UpdateMany); [done|]. simpl.
  by destruct (db_error env Save).
Qed.

(** What [await ensureDb()] leaves of a world when it comes back. *)
Lemma db_ready_inv env w :
  db_ready env w →
  ∃ v c, await_ensureDb env w = (inr v, mkWorld c (overrides w)).
Proof.
  intros [v Hv]. pose proof (await_ensureDb_overrides env w) as Ho.
  destruct (await_ensureDb env w) as [r [c coll]]. simpl in *. subst.
  by exists v, c.
Qed.

Lemma getLatestOverride_overrides la lo da u env w :
  overrides (getLatestOverride la lo da u env w).2 = overrides w.
Proof.
  rewrite getLatestOverride_eq.
  pose proof (await_ensureDb_overrides env w) as Ho.
  destruct (await_ensureDb env w) as [[e|v] w1]; [done|].
  by destruct (db_error env FindOne).
Qed.

Lemma removeOverride_overrides la lo da u env w :
  overrides (removeOverride la lo da u env w).2 = overrides w ∨
  overrides (removeOverride la lo da u env w).2 =
    (findOneAndUpdate (by_key_active la lo da u) (set_active false)
       (overrides w)).2.
Proof.
  rewrite removeOverride_eq.
  pose proof (await_ensureDb_overrides env w) as Ho.
  destruct (await_ensureDb env w) as [[e|v] w1]; [by left|]. simpl in Ho.
  destruct (db_error env FindOneAndUpdate); [by left|].
  right. rewrite Ho. by destruct (findOneAndUpdate _ _ (overrides w)).
Qed.

(** ** getLatestOverride *)

(** C3.  [getLatestOverride] leaves the collection as it is, whatever the
    environment does.  When the database answers, it resolves to [null]
    exactly when no document of the key is active, and otherwise to a stored
    document of the key that is active and whose version no active document
    of the key exceeds. *)
Theorem getLatestOverride_spec la lo da u env w :
  overrides (getLatestOverride la lo da u env w).2 = overrides w ∧
  (db_ready env w → db_error env FindOne = None →
   ∃ r, (getLatestOverride la lo da u env w).1 = inr r ∧
        (r = None ↔ active_of_key la lo da u (overrides w) = []) ∧
        ∀ d, r = Some d →
             d ∈ overrides w ∧ matches (by_key la lo da u) d ∧
             active d = true ∧
             ∀ e, e ∈ overrides w → matches (by_key la lo da u) e →
                  active e = true → (version e ≤ version d)%Z).
Proof.
  split; [apply getLatestOverride_overrides|].
  rewrite getLatestOverride_eq.
  intros (v & c & ->)%db_ready_inv ->. simpl.
  eexists. split; [done|]. split.
  - apply findOne_sort_version_None.
  - intros d (Hin & [Hk Ha]%matches_active_key & Hmax)%findOne_sort_version_Some.
    repeat (split; [done|]).
    intros e He Hke Hae. apply Hmax; [done|]. by apply matches_active_key.
Qed.

Lemma getLatestOverride_spec_witness :
  ∃ r, (getLatestOverride "12.0" "77.0" "2024-01-01" "a@x.com" env_ok
          world_two_active).1 = inr r ∧
       (r = None ↔
        active_of_key "12.0" "77.0" "2024-01-01" "a@x.com"
          (overrides world_two_active) = []) ∧
       ∀ d, r = Some d →
            d ∈ overrides world_two_active ∧
            matches (by_key "12.0" "77.0" "2024-01-01" "a@x.com") d ∧
            active d = true ∧
            ∀ e, e ∈ overrides world_two_active →
                 matches (by_key "12.0" "77.0" "2024-01-01" "a@x.com") e →
                 active e = true → (version e ≤ version d)%Z.
Proof.
  apply (proj2 (getLatestOverride_spec "12.0" "77.0" "2024-01-01" "a@x.com"
                  env_ok world_two_active)).
  - exists true. vm_compute. reflexivity.
  - reflexivity.
Defined.

(** On that collection the call resolves to version 3. *)
Example getLatestOverride_two_active :
  (getLatestOverride "12.0" "77.0" "2024-01-01" "a@x.com" env_ok
     world_two_active).1 = inr (Some (doc "a@x.com" 3 true)).
Proof. vm_compute. reflexivity. Qed.

(** ** removeOverride *)

Lemma findOneAndUpdate_active_count la lo da u coll r coll' :
  findOneAndUpdate (by_key_active la lo da u) (set_active false) coll
    = (Some r, coll') →
  length (active_of_key la lo da u coll)
    = S (length (active_of_key la lo da u coll')).
Proof.
  unfold active_of_key. revert coll'.
  induction coll as [|d coll IH]; intros coll'; simpl; [done|].
  destruct (decide (matches (by_key_active la lo da u) d)) as [Hd|Hd].
  - intros [= <- <-]. rewrite filter_cons_True by done.
    rewrite filter_cons_False; [done|].
    rewrite matches_active_key. by intros [_ ?].
  - destruct (findOneAndUpdate _ _ coll) as [r' c'].
    intros [= -> <-]. rewrite !filter_cons_False by done. by apply IH.
Qed.

(** C10.  A call of [removeOverride] changes at most one stored document,
    whatever the environment does: the collection is as before, or it
    differs at one position, where an active document of the key stood and
    now stands with [active] false. *)
Theorem removeOverride_one_record la lo da u env w :
  overrides (removeOverride la lo da u env w).2 = overrides w ∨
  ∃ i d, overrides w !! i = Some d ∧
         matches (by_key_active la lo da u) d ∧
         overrides (removeOverride la lo da u env w).2
           = <[i := set_active false d]> (overrides w).
Proof.
  destruct (removeOverride_overrides la lo da u env w) as [->| ->];
    [by left|].
  destruct (findOneAndUpdate _ _ (overrides w)) as [[r|] coll] eqn:Hf.
  - apply findOneAndUpdate_Some in Hf as (i & d & Hi & Hd & _ & _ & ->).
    right. by exists i, d.
  - apply findOneAndUpdate_None in Hf as [-> _]. by left.
Qed.

(** With two active documents for the key, only the first is touched. *)
Example removeOverride_two_active :
  overrides (removeOverride "12.0" "77.0" "2024-01-01" "a@x.com" env_ok
               world_two_active).2
  = [doc "a@x.com" 1 false; doc "a@x.com" 2 false;
     doc "b@x.com" 9 true; doc "a@x.com" 3 true].
Proof. vm_compute. reflexivity. Qed.

(** C4, as the code has it.  When the database answers: with no active
    document for the key the call resolves to [null] and changes nothing;
    otherwise it sets [active] to false in one active document of the key
    and resolves to that document as updated.  When at most one document of
    the key was active, none is active after the call, and a second call
    resolves to [null] and again leaves none active. *)
Theorem removeOverride_spec la lo da u env w :
  db_ready env w → db_error env FindOneAndUpdate = None →
  let r := (removeOverride la lo da u env w).1 in
  let w' := (removeOverride la lo da u env w).2 in
  (active_of_key la lo da u (overrides w) = [] →
   r = inr None ∧ overrides w' = overrides w) ∧
  (active_of_key la lo da u (overrides w) ≠ [] →
   ∃ i d, overrides w !! i = Some d ∧
          matches (by_key_active la lo da u) d ∧
          r = inr (Some (set_active false d)) ∧
          overrides w' = <[i := set_active false d]> (overrides w)) ∧
  ((length (active_of_key la lo da u (overrides w)) ≤ 1)%nat →
   active_of_key la lo da u (overrides w') = [] ∧
   ∀ env2, db_ready env2 w' → db_error env2 FindOneAndUpdate = None →
     (removeOverride la lo da u env2 w').1 = inr None ∧
     active_of_key la lo da u
       (overrides (removeOverride la lo da u env2 w').2) = []).
Proof.
  intros Hready Hfu.
  assert (Hnone : ∀ env' w0, db_ready env' w0 →
            db_error env' FindOneAndUpdate = None →
            active_of_key la lo da u (overrides w0) = [] →
            (removeOverride la lo da u env' w0).1 = inr None ∧
            overrides (removeOverride la lo da u env' w0).2 = overrides w0).
  { intros env' w0 (v & c & Hr)%db_ready_inv Hf Hno.
    rewrite removeOverride_eq, Hr, Hf. simpl.
    destruct (findOneAndUpdate _ _ (overrides w0)) as [[r|] coll] eqn:Hfo.
    - apply findOneAndUpdate_Some in Hfo as (i & d & Hi & Hd & _).
      apply list_elem_of_lookup_2 in Hi.
      by destruct (filter_nil_not_elem_of _ _ d Hno Hi).
    - by apply findOneAndUpdate_None in Hfo as [-> _]. }
  split; [by apply Hnone|].
  destruct (db_ready_inv _ _ Hready) as (v & c & Hr).
  assert (Hw' : ∀ r coll,
            findOneAndUpdate (by_key_active la lo da u) (set_active false)
              (overrides w) = (r, coll) →
            removeOverride la lo da u env w = (inr r, mkWorld c coll)).
  { intros r coll Hfo. by rewrite removeOverride_eq, Hr, Hfu; simpl; rewrite Hfo. }
  destruct (findOneAndUpdate (by_key_active la lo da u) (set_active false)
              (overrides w)) as [[r|] coll] eqn:Hfo;
    rewrite (Hw' _ _ eq_refl); simpl.
  - pose proof (findOneAndUpdate_active_count _ _ _ _ _ _ _ Hfo) as Hcount.
    apply findOneAndUpdate_Some in Hfo as (i & d & Hi & Hd & _ & -> & ->).
    split; [intros _; by exists i, d|].
    intros Hle.
    assert (active_of_key la lo da u
              (<[i:=set_active false d]> (overrides w)) = []) as Hno.
    { apply length_zero_iff_nil. lia. }
    split; [done|]. intros env2 Hready2 Hfu2.
    destruct (Hnone env2 _ Hready2 Hfu2 Hno) as [-> ->]. done.
  - apply findOneAndUpdate_None in Hfo as [-> Hno].
    split; [intros Hne; by destruct Hne|].
    intros _. split; [done|]. intros env2 Hready2 Hfu2.
    destruct (Hnone env2 _ Hready2 Hfu2 Hno) as [-> ->]. done.
Qed.

Lemma removeOverride_spec_witness :
  let w := (addOverride "12.0" "77.0" "2024-01-01" (JNum 10) "a@x.com"
              env_ok world_start).2 in
  let r := (removeOverride "12.0" "77.0" "2024-01-01" "a@x.com" env_ok w).1 in
  let w' := (removeOverride "12.0" "77.0" "2024-01-01" "a@x.com" env_ok w).2 in
  (active_of_key "12.0" "77.0" "2024-01-01" "a@x.com" (overrides w) = [] →
   r = inr None ∧ overrides w' = overrides w) ∧
  (active_of_key "12.0" "77.0" "2024-01-01" "a@x.com" (overrides w) ≠ [] →
   ∃ i d, overrides w !! i = Some d ∧
          matches (by_key_active "12.0" "77.0" "2024-01-01" "a@x.com") d ∧
          r = inr (Some (set_active false d)) ∧
          overrides w' = <[i := set_active false d]> (overrides w)) ∧
  ((length (active_of_key "12.0" "77.0" "2024-01-01" "a@x.com"
              (overrides w)) ≤ 1)%nat →
   active_of_key "12.0" "77.0" "2024-01-01" "a@x.com" (overrides w') = [] ∧
   ∀ env2, db_ready env2 w' → db_error env2 FindOneAndUpdate = None →
     (removeOverride "12.0" "77.0" "2024-01-01" "a@x.com" env2 w').1
       = inr None ∧
     active_of_key "12.0" "77.0" "2024-01-01" "a@x.com"
       (overrides (removeOverride "12.0" "77.0" "2024-01-01" "a@x.com"
                     env2 w').2) = []).
Proof.
  intros w.
  apply (removeOverride_spec "12.0" "77.0" "2024-01-01" "a@x.com" env_ok w).
  - exists true. vm_compute. reflexivity.
  - reflexivity.
Defined.

(** C4 as stated fails where two documents of the key are active: the first
    of two calls in a row leaves one of them active. *)
Lemma removeOverride_twice_counterexample :
  let w1 := (removeOverride "12.0" "77.0" "2024-01-01" "a@x.com" env_ok
               world_two_active).2 in
  let w2 := (removeOverride "12.0" "77.0" "2024-01-01" "a@x.com" env_ok
               w1).2 in
  ¬ (active_of_key "12.0" "77.0" "2024-01-01" "a@x.com" (overrides w1) = [] ∧
     active_of_key "12.0" "77.0" "2024-01-01" "a@x.com" (overrides w2) = []).
Proof. vm_compute. intros [H _]. discriminate H. Qed.

(** ** addOverride *)

(** [addOverride] with a database that answers every call. *)
Lemma addOverride_ok la lo da values u env w :
  db_ready env w → (∀ c, db_error env c = None) →
  addOverride la lo da values u env w =
  (inr (newOverride la lo da values u env (overrides w)),
   mkWorld (conn (await_ensureDb env w).2)
           (updateMany (by_key la lo da u) (set_active false) (overrides w)
            ++ [newOverride la lo da values u env (overrides w)])).
Proof.
  intros (v & c & Hr)%db_ready_inv Hdb.
  by rewrite addOverride_eq, Hr, !Hdb.
Qed.

Lemma newOverride_matches la lo da values u env coll :
  matches (by_key_active la lo da u) (newOverride la lo da values u env coll).
Proof. by unfold matches. Qed.

(** C1.  When the database answers, [addOverride] resolves to a new document
    of the key with [active] true and the payload given, stored behind the
    documents that were there; each of those is as before, but with
    [active] false when it is of the key; so the new document is the one
    active document of the key, and no other position holds one. *)
Theorem addOverride_single_active la lo da values u env w :
  db_ready env w → (∀ c, db_error env c = None) →
  ∃ d, (addOverride la lo da values u env w).1 = inr d ∧
       matches (by_key_active la lo da u) d ∧ newValues d = values ∧
       let coll' := overrides (addOverride la lo da values u env w).2 in
       length coll' = S (length (overrides w)) ∧
       coll' !! length (overrides w) = Some d ∧
       (∀ i e, overrides w !! i = Some e →
               coll' !! i = Some (if decide (matches (by_key la lo da u) e)
                                  then set_active false e else e)) ∧
       active_of_key la lo da u coll' = [d] ∧
       (∀ i e, coll' !! i = Some e → matches (by_key_active la lo da u) e →
               i = length (overrides w)).
Proof.
  intros Hready Hdb.
  rewrite (addOverride_ok la lo da values u env w Hready Hdb).
  simpl. eexists. split; [done|].
  split; [apply newOverride_matches|]. split; [done|].
  set (d := newOverride la lo da values u env (overrides w)).
  set (k := by_key la lo da u).
  assert (Hact : active_of_key la lo da u
                   (updateMany k (set_active false) (overrides w) ++ [d])
                 = [d]).
  { unfold active_of_key. rewrite filter_app.
    fold (active_of_key la lo da u (updateMany k (set_active false) (overrides w))).
    unfold k. rewrite updateMany_no_active. simpl.
    rewrite filter_cons_True by apply newOverride_matches. done. }
  split; [rewrite length_app, updateMany_length; simpl; lia|].
  split.
  { rewrite lookup_app_r by (rewrite updateMany_length; lia).
    by rewrite updateMany_length, Nat.sub_diag. }
  split.
  { intros i e Hi. rewrite lookup_app_l.
    - by rewrite updateMany_lookup, Hi.
    - rewrite updateMany_length. by eapply lookup_lt_Some. }
  split; [done|].
  intros i e Hi He.
  destruct (decide (i < length (overrides w))) as [Hlt|Hge].
  - rewrite lookup_app_l in Hi by (by rewrite updateMany_length).
    apply list_elem_of_lookup_2 in Hi.
    by destruct (filter_nil_not_elem_of _ _ e
                   (updateMany_no_active la lo da u (overrides w)) Hi).
  - apply lookup_lt_Some in Hi.
    rewrite length_app, updateMany_length in Hi. simpl in Hi. lia.
Qed.

Lemma addOverride_single_active_witness :
  ∃ d, (addOverride "12.0" "77.0" "2024-01-01" (JNum 30) "a@x.com" env_ok
          world_two_active).1 = inr d ∧
       matches (by_key_active "12.0" "77.0" "2024-01-01" "a@x.com") d ∧
       newValues d = JNum 30 ∧
       let coll' :=
         overrides (addOverride "12.0" "77.0" "2024-01-01" (JNum 30)
                      "a@x.com" env_ok world_two_active).2 in
       length coll' = S (length (overrides world_two_active)) ∧
       coll' !! length (overrides world_two_active) = Some d ∧
       (∀ i e, overrides world_two_active !! i = Some e →
               coll' !! i =
               Some (if decide (matches (by_key "12.0" "77.0" "2024-01-01"
                                          "a@x.com") e)
                     then set_active false e else e)) ∧
       active_of_key "12.0" "77.0" "2024-01-01" "a@x.com" coll' = [d] ∧
       (∀ i e, coll' !! i = Some e →
               matches (by_key_active "12.0" "77.0" "2024-01-01" "a@x.com") e →
               i = length (overrides world_two_active)).
Proof.
  apply (addOverride_single_active "12.0" "77.0" "2024-01-01" (JNum 30)
           "a@x.com" env_ok world_two_active).
  - exists true. vm_compute. reflexivity.
  - intros c. reflexivity.
Defined.

(** After a call on the collection with two active documents of the key. *)
Example addOverride_two_active :
  overrides (addOverride "12.0" "77.0" "2024-01-01" (JNum 30) "a@x.com"
               env_ok world_two_active).2
  = [doc "a@x.com" 1 false; doc "a@x.com" 2 false;
     doc "b@x.com" 9 true; doc "a@x.com" 3 false;
     mkOverride "12.0" "77.0" "2024-01-01" (JNum 30)
                "2024-01-01T00:00:00.000Z" "a@x.com" 4 true].
Proof. vm_compute. reflexivity. Qed.

(** The three collections a call can leave behind: the old one, the old
    one after the bulk update, and that with the new document appended. *)
Lemma addOverride_overrides la lo da values u env w :
  let coll := overrides (addOverride la lo da values u env w).2 in
  let upd := updateMany (by_key la lo da u) (set_active false) (overrides w) in
  coll = overrides w ∨ coll = upd ∨
  coll = upd ++ [newOverride la lo da values u env (overrides w)].
Proof.
  simpl. rewrite addOverride_eq.
  pose proof (await_ensureDb_overrides env w) as Ho.
  destruct (await_ensureDb env w) as [[err|v] w1]; simpl in *; [by left|].
  destruct (db_error env FindOne); [by left|].
  destruct (db_error env UpdateMany); [by left|].
  rewrite Ho. destruct (db_error env Save); simpl; auto.
Qed.

(** *** A failing insert *)

(** C9.  When the connection, the lookup and the bulk update go through
    and [save] rejects, [addOverride] throws the error of [save]; the
    collection then is the old one after the bulk update: no document more,
    none of the key active, and different from the old one where the key
    had an active document. *)
Theorem addOverride_save_fails la lo da values u env w err :
  db_ready env w →
  db_error env FindOne = None → db_error env UpdateMany = None →
  db_error env Save = Some err →
  let w' := (addOverride la lo da values u env w).2 in
  (addOverride la lo da values u env w).1 = inl err ∧
  overrides w' =
    updateMany (by_key la lo da u) (set_active false) (overrides w) ∧
  length (overrides w') = length (overrides w) ∧
  active_of_key la lo da u (overrides w') = [] ∧
  (active_of_key la lo da u (overrides w) ≠ [] →
   overrides w' ≠ overrides w).
Proof.
  intros (v & c & Hr)%db_ready_inv Hfo Hum Hsave.
  rewrite addOverride_eq, Hr, Hfo, Hum, Hsave. simpl.
  split; [done|]. split; [done|].
  split; [apply updateMany_length|].
  split; [apply updateMany_no_active|].
  intros Hne Heq. apply Hne. rewrite <- Heq. apply updateMany_no_active.
Qed.

Lemma addOverride_save_fails_witness :
  let env := mkEnv None
                   (λ c, if decide (c = Save) then Some "ECONNRESET" else None)
                   "2024-01-01T00:00:00.000Z" in
  let w' := (addOverride "12.0" "77.0" "2024-01-01" (JNum 30) "a@x.com" env
               world_two_active).2 in
  (addOverride "12.0" "77.0" "2024-01-01" (JNum 30) "a@x.com" env
     world_two_active).1 = inl "ECONNRESET" ∧
  overrides w' =
    updateMany (by_key "12.0" "77.0" "2024-01-01" "a@x.com")
               (set_active false) (overrides world_two_active) ∧
  length (overrides w') = length (overrides world_two_active) ∧
  active_of_key "12.0" "77.0" "2024-01-01" "a@x.com" (overrides w') = [] ∧
  (active_of_key "12.0" "77.0" "2024-01-01" "a@x.com"
     (overrides world_two_active) ≠ [] →
   overrides w' ≠ overrides world_two_active).
Proof.
  intros env.
  apply (addOverride_save_fails "12.0" "77.0" "2024-01-01" (JNum 30)
           "a@x.com" env world_two_active "ECONNRESET").
  - exists true. vm_compute. reflexivity.
  - reflexivity.
  - reflexivity.
  - reflexivity.
Defined.

(** *** Other owners *)

Lemma matches_other_owner la lo da a b e :
  a ≠ b → matches (by_key la lo da a) e → ¬ matches (by_key la lo da b) e.
Proof. unfold matches; simpl. intros Hab (_ & _ & _ & Ha & _) (_ & _ & _ & Hb & _). congruence. Qed.

Lemma of_key_without_other la lo da a b coll :
  a ≠ b →
  of_key la lo da a (filter (λ e, ¬ matches (by_key la lo da b) e) coll)
  = of_key la lo da a coll.
Proof.
  intros Hab. unfold of_key. induction coll as [|e coll IH]; [done|].
  destruct (decide (matches (by_key la lo da a) e)) as [Ha|Ha].
  - rewrite (filter_cons_True (λ e, ¬ _) e)
      by by eapply matches_other_owner.
    rewrite !filter_cons_True by done. by rewrite IH.
  - rewrite (filter_cons_False (matches _) e coll) by done.
    destruct (decide (matches (by_key la lo da b) e)) as [Hb|Hb].
    + rewrite filter_cons_False by tauto. done.
    + rewrite (filter_cons_True (λ e, ¬ _) e) by done.
      rewrite filter_cons_False by done. done.
Qed.

Lemma updateMany_other_owner la lo da a b coll :
  a ≠ b →
  of_key la lo da b (updateMany (by_key la lo da a) (set_active false) coll)
  = of_key la lo da b coll.
Proof.
  intros Hab. unfold of_key, updateMany.
  induction coll as [|e coll IH]; [done|]. rewrite fmap_cons.
  destruct (decide (matches (by_key la lo da a) e)) as [Ha|Ha].
  - rewrite !filter_cons_False; [done|..].
    + by eapply matches_other_owner.
    + intros Hb%matches_set_active. by eapply matches_other_owner.
  - destruct (decide (matches (by_key la lo da b) e)) as [Hb|Hb].
    + rewrite !filter_cons_True by done. by rewrite IH.
    + rewrite !filter_cons_False by done. done.
Qed.

(** C6.  For owners [a ≠ b] and a call of [addOverride] under [a], whatever
    the environment does: each document of [b] at that location and date
    stays at its position as it is, and the list of these documents is the
    same afterwards.  When the database answers, the version given under
    [a] is the same on every collection that differs from this one only in
    documents of [b] at that location and date. *)
Theorem addOverride_other_owner la lo da values a b env w :
  a ≠ b →
  let w' := (addOverride la lo da values a env w).2 in
  (∀ i e, overrides w !! i = Some e → matches (by_key la lo da b) e →
          overrides w' !! i = Some e) ∧
  of_key la lo da b (overrides w') = of_key la lo da b (overrides w) ∧
  (∀ env2 w2,
     db_ready env w → (∀ c, db_error env c = None) →
     db_ready env2 w2 → (∀ c, db_error env2 c = None) →
     filter (λ e, ¬ matches (by_key la lo da b) e) (overrides w2)
       = filter (λ e, ¬ matches (by_key la lo da b) e) (overrides w) →
     ∃ d d2, (addOverride la lo da values a env w).1 = inr d ∧
             (addOverride la lo da values a env2 w2).1 = inr d2 ∧
             version d2 = version d).
Proof.
  intros Hab. simpl.
  pose proof (addOverride_overrides la lo da values a env w) as Hcoll.
  simpl in Hcoll.
  set (d := newOverride la lo da values a env (overrides w)) in *.
  assert (Hd : ¬ matches (by_key la lo da b) d).
  { apply (matches_other_owner la lo da a b); [done|].
    by apply (proj1 (matches_active_key _ _ _ _ _)), newOverride_matches. }
  split; [|split].
  - intros i e Hi Hb.
    assert (updateMany (by_key la lo da a) (set_active false) (overrides w)
              !! i = Some e) as Hupd.
    { rewrite updateMany_lookup, Hi. simpl.
      case_decide as Ha; [|done].
      by destruct (matches_other_owner la lo da a b e Hab Ha). }
    destruct Hcoll as [->|[->| ->]]; [done..|].
    by apply lookup_app_l_Some.
  - destruct Hcoll as [->|[->| ->]]; [done|by apply updateMany_other_owner|].
    unfold of_key. rewrite filter_app.
    rewrite filter_cons_False, filter_nil, app_nil_r by done.
    by apply updateMany_other_owner.
  - intros env2 w2 Hready Hdb Hready2 Hdb2 Hsame.
    rewrite (addOverride_ok _ _ _ _ _ _ _ Hready Hdb).
    rewrite (addOverride_ok _ _ _ _ _ _ _ Hready2 Hdb2).
    do 2 eexists. split; [done|]. split; [done|]. simpl.
    unfold next_version, findOne_sort_version.
    fold (of_key la lo da a (overrides w2)).
    fold (of_key la lo da a (overrides w)).
    rewrite <- (of_key_without_other la lo da a b (overrides w2)) by done.
    rewrite <- (of_key_without_other la lo da a b (overrides w)) by done.
    by rewrite Hsame.
Qed.

Lemma addOverride_other_owner_witness :
  let w := world_two_active in
  let w' := (addOverride "12.0" "77.0" "2024-01-01" (JNum 30) "a@x.com"
               env_ok w).2 in
  (∀ i e, overrides w !! i = Some e →
          matches (by_key "12.0" "77.0" "2024-01-01" "b@x.com") e →
          overrides w' !! i = Some e) ∧
  of_key "12.0" "77.0" "2024-01-01" "b@x.com" (overrides w')
    = of_key "12.0" "77.0" "2024-01-01" "b@x.com" (overrides w) ∧
  (∀ env2 w2,
     db_ready env_ok w → (∀ c, db_error env_ok c = None) →
     db_ready env2 w2 → (∀ c, db_error env2 c = None) →
     filter (λ e, ¬ matches (by_key "12.0" "77.0" "2024-01-01" "b@x.com") e)
            (overrides w2)
       = filter (λ e, ¬ matches (by_key "12.0" "77.0" "2024-01-01"
                                   "b@x.com") e)
                (overrides w) →
     ∃ d d2, (addOverride "12.0" "77.0" "2024-01-01" (JNum 30) "a@x.com"
                env_ok w).1 = inr d ∧
             (addOverride "12.0" "77.0" "2024-01-01" (JNum 30) "a@x.com"
                env2 w2).1 = inr d2 ∧
             version d2 = version d).
Proof.
  intros w.
  apply (addOverride_other_owner "12.0" "77.0" "2024-01-01" (JNum 30)
           "a@x.com" "b@x.com" env_ok w).
  discriminate.
Defined.

(** The version under a@x.com is 4 with the document of b@x.com and without
    it, and that document keeps version 9 and stays active. *)
Example addOverride_other_owner_run :
  let w2 := mkWorld (conn world_two_active)
              [doc "a@x.com" 1 false; doc "a@x.com" 2 true;
               doc "a@x.com" 3 true] in
  let given r :=
    match r with inr d => Some (version d) | inl _ => None end in
  given (addOverride "12.0" "77.0" "2024-01-01" (JNum 30) "a@x.com"
           env_ok world_two_active).1 = Some 4%Z ∧
  given (addOverride "12.0" "77.0" "2024-01-01" (JNum 30) "a@x.com"
           env_ok w2).1 = Some 4%Z ∧
  of_key "12.0" "77.0" "2024-01-01" "b@x.com"
    (overrides (addOverride "12.0" "77.0" "2024-01-01" (JNum 30) "a@x.com"
                  env_ok world_two_active).2)
  = [doc "b@x.com" 9 true].
Proof. vm_compute. auto. Qed.

(** ** addOverride, removeOverride, getLatestOverride in a row *)

Lemma findOneAndUpdate_app_skip f patch l1 l2 :
  filter (matches f) l1 = [] →
  findOneAndUpdate f patch (l1 ++ l2) =
  ((findOneAndUpdate f patch l2).1, l1 ++ (findOneAndUpdate f patch l2).2).
Proof.
  induction l1 as [|d l1 IH]; intros Hnil; simpl.
  - by destruct (findOneAndUpdate f patch l2).
  - destruct (decide (matches f d)) as [Hd|Hd].
    + by rewrite filter_cons_True in Hnil.
    + rewrite filter_cons_False in Hnil by done. by rewrite IH.
Qed.

Lemma removeOverride_ok la lo da u env w :
  db_ready env w → db_error env FindOneAndUpdate = None →
  removeOverride la lo da u env w =
  (inr (findOneAndUpdate (by_key_active la lo da u) (set_active false)
          (overrides w)).1,
   mkWorld (conn (await_ensureDb env w).2)
           (findOneAndUpdate (by_key_active la lo da u) (set_active false)
              (overrides w)).2).
Proof.
  intros (v & c & Hr)%db_ready_inv Hfu.
  rewrite removeOverride_eq, Hr, Hfu. simpl.
  by destruct (findOneAndUpdate _ _ (overrides w)).
Qed.

Lemma getLatestOverride_ok la lo da u env w :
  db_ready env w → db_error env FindOne = None →
  getLatestOverride la lo da u env w =
  (inr (findOne_sort_version (by_key_active la lo da u) (overrides w)),
   mkWorld (conn (await_ensureDb env w).2) (overrides w)).
Proof.
  intros (v & c & Hr)%db_ready_inv Hfo.
  by rewrite getLatestOverride_eq, Hr, Hfo.
Qed.

(** C5.  From a connectable state and with nothing rejecting, the calls
    [addOverride], [removeOverride], [getLatestOverride] on one key, run in
    this order, resolve to the new document [d], to [d] with [active] false
    and to [null]; the collection then holds [d] with [active] false where
    the first call has put [d]. *)
Theorem add_remove_getLatest la lo da values u env1 env2 env3 w :
  connectable (conn w) →
  fault_free env1 → fault_free env2 → fault_free env3 →
  let w1 := (addOverride la lo da values u env1 w).2 in
  let w2 := (removeOverride la lo da u env2 w1).2 in
  let w3 := (getLatestOverride la lo da u env3 w2).2 in
  ∃ d, (addOverride la lo da values u env1 w).1 = inr d ∧
       overrides w1 !! length (overrides w) = Some d ∧
       (removeOverride la lo da u env2 w1).1
         = inr (Some (set_active false d)) ∧
       (getLatestOverride la lo da u env3 w2).1 = inr None ∧
       overrides w3 !! length (overrides w) = Some (set_active false d) ∧
       active (set_active false d) = false.
Proof.
  intros Hc [Hce1 Hdb1] [Hce2 Hdb2] [Hce3 Hdb3].
  destruct (connectable_ready env1 w Hc Hce1) as [Hready1 Hc1].
  rewrite (addOverride_ok la lo da values u env1 w Hready1 Hdb1). simpl.
  set (d := newOverride la lo da values u env1 (overrides w)).
  set (upd := updateMany (by_key la lo da u) (set_active false) (overrides w)).
  set (w1 := mkWorld _ (upd ++ [d])).
  destruct (connectable_ready env2 w1 Hc1 Hce2) as [Hready2 Hc2].
  rewrite (removeOverride_ok la lo da u env2 w1 Hready2 (Hdb2 _)).
  assert (findOneAndUpdate (by_key_active la lo da u) (set_active false)
            (overrides w1)
          = (Some (set_active false d), upd ++ [set_active false d])) as ->.
  { unfold w1; simpl. rewrite findOneAndUpdate_app_skip
      by apply updateMany_no_active.
    simpl. rewrite decide_True by apply newOverride_matches. done. }
  simpl. set (w2 := mkWorld _ (upd ++ [set_active false d])).
  destruct (connectable_ready env3 w2 Hc2 Hce3) as [Hready3 _].
  rewrite (getLatestOverride_ok la lo da u env3 w2 Hready3 (Hdb3 _)). simpl.
  assert (Hlen : length upd = length (overrides w))
    by apply updateMany_length.
  exists d. split; [done|].
  split; [by rewrite lookup_app_r, Hlen, Nat.sub_diag by lia|].
  split; [done|].
  split.
  - f_equal. apply findOne_sort_version_None.
    rewrite filter_app.
    fold (active_of_key la lo da u upd). unfold upd.
    rewrite updateMany_no_active. simpl.
    rewrite filter_cons_False; [done|].
    rewrite matches_active_key. by intros [_ ?].
  - split; [|done]. by rewrite lookup_app_r, Hlen, Nat.sub_diag by lia.
Qed.

Lemma add_remove_getLatest_witness :
  let w := world_two_active in
  let w1 := (addOverride "12.0" "77.0" "2024-01-01" (JNum 30) "a@x.com"
               env_ok w).2 in
  let w2 := (removeOverride "12.0" "77.0" "2024-01-01" "a@x.com" env_ok
               w1).2 in
  let w3 := (getLatestOverride "12.0" "77.0" "2024-01-01" "a@x.com" env_ok
               w2).2 in
  ∃ d, (addOverride "12.0" "77.0" "2024-01-01" (JNum 30) "a@x.com" env_ok
          w).1 = inr d ∧
       overrides w1 !! length (overrides w) = Some d ∧
       (removeOverride "12.0" "77.0" "2024-01-01" "a@x.com" env_ok w1).1
         = inr (Some (set_active false d)) ∧
       (getLatestOverride "12.0" "77.0" "2024-01-01" "a@x.com" env_ok w2).1
         = inr None ∧
       overrides w3 !! length (overrides w) = Some (set_active false d) ∧
       active (set_active false d) = false.
Proof.
  intros w.
  apply (add_remove_getLatest "12.0" "77.0" "2024-01-01" (JNum 30) "a@x.com"
           env_ok env_ok env_ok w).
  - apply init_conn_connectable. discriminate.
  - split; [reflexivity|intros c; reflexivity].
  - split; [reflexivity|intros c; reflexivity].
  - split; [reflexivity|intros c; reflexivity].
Defined.

(** ** Documents over a sequence of calls *)

Lemma evolves_refl d : evolves d d.
Proof. split; [by destruct d|done]. Qed.

Lemma evolves_trans d1 d2 d3 : evolves d1 d2 → evolves d2 d3 → evolves d1 d3.
Proof.
  intros [H12 F12] [H23 F23]. split.
  - destruct d1, d2, d3. unfold set_active in *. simpl in *. congruence.
  - intros H1. apply F23, F12, H1.
Qed.

Lemma evolves_set_active_false d : evolves d (set_active false d).
Proof. by split. Qed.

Lemma updateMany_evolves f coll i d :
  coll !! i = Some d →
  ∃ d', updateMany f (set_active false) coll !! i = Some d' ∧ evolves d d'.
Proof.
  intros Hi. rewrite updateMany_lookup, Hi. simpl. eexists. split; [done|].
  case_decide; [apply evolves_set_active_false|apply evolves_refl].
Qed.

Lemma findOneAndUpdate_evolves f coll i d :
  coll !! i = Some d →
  ∃ d', (findOneAndUpdate f (set_active false) coll).2 !! i = Some d' ∧
        evolves d d'.
Proof.
  intros Hi.
  destruct (findOneAndUpdate f (set_active false) coll) as [[r|] coll']
    eqn:Hf; simpl.
  - apply findOneAndUpdate_Some in Hf as (j & e & Hj & _ & _ & _ & ->).
    destruct (decide (i = j)) as [->|Hne].
    + rewrite list_lookup_insert_eq by by eapply lookup_lt_Some.
      eexists. split; [done|].
      assert (e = d) as -> by congruence. apply evolves_set_active_false.
    + rewrite list_lookup_insert_ne by done.
      exists d. split; [done|apply evolves_refl].
  - apply findOneAndUpdate_None in Hf as [-> _].
    exists d. split; [done|apply evolves_refl].
Qed.

Lemma call_evolves c env w i d :
  overrides w !! i = Some d →
  ∃ d', overrides (call c env w).2 !! i = Some d' ∧ evolves d d'.
Proof.
  intros Hi. destruct c as [la lo da u|la lo da values u|la lo da u];
    unfold call, mbind, Async_bind, mret, Async_ret.
  - pose proof (getLatestOverride_overrides la lo da u env w) as Ho.
    destruct (getLatestOverride la lo da u env w) as [[e|r] w1];
      simpl in *; rewrite Ho; exists d; (split; [done|apply evolves_refl]).
  - pose proof (addOverride_overrides la lo da values u env w) as Ho.
    destruct (addOverride la lo da values u env w) as [[e|r] w1];
      simpl in *;
      (destruct Ho as [->|[->| ->]];
       [exists d; split; [done|apply evolves_refl]
       |by apply updateMany_evolves
       |destruct (updateMany_evolves (by_key la lo da u) _ _ _ Hi)
          as (d' & Hd' & He);
        exists d'; split; [by apply lookup_app_l_Some|done]]).
  - pose proof (removeOverride_overrides la lo da u env w) as Ho.
    destruct (removeOverride la lo da u env w) as [[e|r] w1];
      simpl in *;
      (destruct Ho as [->| ->];
       [exists d; split; [done|apply evolves_refl]
       |by apply findOneAndUpdate_evolves]).
Qed.

Lemma run_evolves cs w i d :
  overrides w !! i = Some d →
  ∃ d', overrides (run cs w).2 !! i = Some d' ∧ evolves d d'.
Proof.
  revert w d. induction cs as [|[c env] cs IH]; intros w d Hi; simpl.
  - exists d. split; [done|apply evolves_refl].
  - destruct (call_evolves c env w i d Hi) as (d1 & H1 & E1).
    destruct (call c env w) as [r w1]. simpl in H1.
    destruct (IH w1 d1 H1) as (d2 & H2 & E2).
    destruct (run cs w1) as [rs w2]. simpl in *.
    exists d2. split; [done|by eapply evolves_trans].
Qed.

Lemma run_app cs1 cs2 w :
  (run (cs1 ++ cs2) w).2 = (run cs2 (run cs1 w).2).2.
Proof.
  revert w. induction cs1 as [|[c env] cs1 IH]; intros w; simpl; [done|].
  destruct (call c env w) as [r w1]. specialize (IH w1).
  destruct (run (cs1 ++ cs2) w1) as [rs w2].
  destruct (run cs1 w1) as [rs1 w1']. simpl in *. done.
Qed.

(** C7.  Take any calls [cs1], run from any world and in any environments,
    and a document [d] stored at position [i] afterwards.  After any further
    calls [cs2], position [i] holds a document that agrees with [d] in every
    field but [active], and whose [active] is false if that of [d] was. *)
Theorem active_only_falls cs1 cs2 w i d :
  overrides (run cs1 w).2 !! i = Some d →
  ∃ d', overrides (run (cs1 ++ cs2) w).2 !! i = Some d' ∧
        d' = set_active (active d') d ∧
        (active d = false → active d' = false).
Proof.
  intros Hi. rewrite run_app. by apply run_evolves.
Qed.

Lemma active_only_falls_witness :
  let cs1 := [(Add "12.0" "77.0" "2024-01-01" (JNum 10) "a@x.com", env_ok);
              (Remove "12.0" "77.0" "2024-01-01" "a@x.com", env_ok)] in
  let cs2 := [(Add "12.0" "77.0" "2024-01-01" (JNum 20) "a@x.com", env_ok);
              (GetLatest "12.0" "77.0" "2024-01-01" "a@x.com", env_ok)] in
  let d := mkOverride "12.0" "77.0" "2024-01-01" (JNum 10)
                      "2024-01-01T00:00:00.000Z" "a@x.com" 1 false in
  ∃ d', overrides (run (cs1 ++ cs2) world_start).2 !! 0 = Some d' ∧
        d' = set_active (active d') d ∧
        (active d = false → active d' = false).
Proof.
  intros cs1 cs2 d.
  apply (active_only_falls cs1 cs2 world_start 0 d).
  vm_compute. reflexivity.
Defined.

(** ** The connection guard *)

Lemma rejected_not_live a : rejected a → ¬ live a.
Proof. intros [e He] [Hl|Hl]; congruence. Qed.

Lemma filter_live_rejected l : Forall rejected l → filter live l = [].
Proof.
  induction 1 as [|a l Ha _ IH]; [done|].
  rewrite filter_cons_False by by apply rejected_not_live. done.
Qed.

Lemma guard_inv_init u : guard_inv (init_conn u).
Proof. split; simpl; constructor. Qed.

(** A pending attempt is the one the guard names. *)
Lemma guard_inv_pending c p :
  guard_inv c → settled <$> attempts c !! p = Some Pending →
  ∃ older a, attempts c = older ++ [a] ∧ p = length older ∧
             connectingPromise c = Some p ∧ Forall rejected older ∧
             Forall timeouts_3000 (attempts c) ∧ settled a = Pending.
Proof.
  intros [Hto Hg] Hp.
  destruct (attempts c !! p) as [a|] eqn:Ha; [|done].
  injection Hp as Hp.
  assert (Hin : ∀ l, Forall rejected l → l !! p = Some a → False).
  { intros l Hl Hl'. apply list_elem_of_lookup_2 in Hl'.
    rewrite Forall_forall in Hl. destruct (Hl a Hl') as [e He]. congruence. }
  destruct (connectingPromise c) as [q|]; [|by destruct (Hin _ Hg Ha)].
  destruct Hg as (older & b & Heq & -> & Hrej & Hlive).
  rewrite Heq in Ha.
  destruct (decide (p < length older)) as [Hlt|Hge].
  - rewrite lookup_app_l in Ha by done. by destruct (Hin _ Hrej Ha).
  - assert (p = length older) as ->.
    { apply lookup_lt_Some in Ha. rewrite length_app in Ha. simpl in Ha. lia. }
    rewrite lookup_app_r, Nat.sub_diag in Ha by lia.
    injection Ha as ->. by exists older, a.
Qed.

Lemma alter_last {A} (f : A → A) (l : list A) (a : A) :
  alter f (length l) (l ++ [a]) = l ++ [f a].
Proof.
  rewrite <- (Nat.add_0_r (length l)). by rewrite alter_app_r.
Qed.

Lemma guard_inv_step e c : guard_inv c → guard_inv (step e c).
Proof.
  intros Hinv. destruct e as [|p|p err|n]; simpl.
  - unfold ensureDb. destruct (unset (MONGO_URI c)); [done|].
    case_bool_decide; [done|].
    destruct Hinv as [Hto Hg].
    destruct (connectingPromise c) as [q|] eqn:Hq; simpl.
    + split; [done|]. by rewrite Hq.
    + split.
      * apply Forall_app. split; [done|]. by repeat constructor.
      * eexists _, _. split; [done|]. split; [done|]. split; [done|]. by left.
  - destruct (settled <$> attempts c !! p) as [[| |]|] eqn:Hp; try done.
    destruct (guard_inv_pending c p Hinv Hp)
      as (older & a & Heq & -> & Hg & Hrej & Hto & Ha).
    unfold onConnected, settle, set_readyState. simpl.
    rewrite Hg, Heq, alter_last. split; simpl.
    + rewrite Heq in Hto. apply Forall_app in Hto as [Hto1 Hto2].
      apply Forall_app. split; [done|].
      apply Forall_singleton. exact (proj1 (Forall_singleton _ _) Hto2).
    + exists older, (mkAttempt (uri a) (options a) (Fulfilled true)).
      repeat (split; [done|]). by right.
  - destruct (settled <$> attempts c !! p) as [[| |]|] eqn:Hp; try done.
    destruct (guard_inv_pending c p Hinv Hp)
      as (older & a & Heq & -> & Hg & Hrej & Hto & Ha).
    unfold onConnectFailed, settle. simpl.
    rewrite Heq, alter_last. split; simpl.
    + rewrite Heq in Hto. apply Forall_app in Hto as [Hto1 Hto2].
      apply Forall_app. split; [done|].
      apply Forall_singleton. exact (proj1 (Forall_singleton _ _) Hto2).
    + apply Forall_app. split; [done|].
      apply Forall_singleton. by exists err.
  - done.
Qed.

Lemma guard_inv_run es c : guard_inv c → guard_inv (run_events es c).
Proof.
  revert c. induction es as [|e es IH]; intros c Hc; [done|].
  simpl. apply IH. by apply guard_inv_step.
Qed.

Lemma guard_inv_live c : guard_inv c → length (filter live (attempts c)) ≤ 1.
Proof.
  intros [_ Hg]. destruct (connectingPromise c) as [p|].
  - destruct Hg as (older & a & -> & _ & Hrej & Hlive).
    rewrite filter_app, (filter_live_rejected _ Hrej). simpl.
    by rewrite filter_cons_True.
  - rewrite (filter_live_rejected _ Hg). simpl. lia.
Qed.

Lemma step_attempts_length e c :
  e ≠ CallEnsureDb → length (attempts (step e c)) = length (attempts c).
Proof.
  intros He. destruct e as [|p|p err|n]; simpl; try done.
  - destruct (settled <$> attempts c !! p) as [[| |]|]; try done.
    simpl. by rewrite length_alter.
  - destruct (settled <$> attempts c !! p) as [[| |]|]; try done.
    simpl. by rewrite length_alter.
Qed.

(** The first call that finds no connection and no cached promise. *)
Lemma ensureDb_starts c :
  unset (MONGO_URI c) = false → readyState c ≠ 1 →
  connectingPromise c = None →
  ensureDb c =
  (Awaits (length (attempts c)),
   mkConn (MONGO_URI c) (readyState c) (Some (length (attempts c)))
          (attempts c ++ [mkAttempt (default "" (MONGO_URI c))
                                    (mkOptions 3000 3000) Pending])).
Proof.
  intros Hu Hrs Hg. unfold ensureDb.
  by rewrite Hu, bool_decide_eq_false_2, Hg.
Qed.

(** A call that finds a cached promise. *)
Lemma ensureDb_shares c p :
  unset (MONGO_URI c) = false → readyState c ≠ 1 →
  connectingPromise c = Some p →
  ensureDb c = (Awaits p, c).
Proof.
  intros Hu Hrs Hg. unfold ensureDb.
  by rewrite Hu, bool_decide_eq_false_2, Hg.
Qed.

(** A helper whose [await ensureDb()] throws, throws the same. *)
Lemma helpers_rethrow env w e :
  (await_ensureDb env w).1 = inl e →
  (∀ la lo da u, getLatestOverride la lo da u env w
                 = (inl e, (await_ensureDb env w).2)) ∧
  (∀ la lo da values u, addOverride la lo da values u env w
                        = (inl e, (await_ensureDb env w).2)) ∧
  (∀ la lo da u, removeOverride la lo da u env w
                 = (inl e, (await_ensureDb env w).2)).
Proof.
  intros He. split; [|split]; intros.
  - rewrite getLatestOverride_eq.
    destruct (await_ensureDb env w) as [[e'|v] w1]; simpl in *; congruence.
  - rewrite addOverride_eq.
    destruct (await_ensureDb env w) as [[e'|v] w1]; simpl in *; congruence.
  - rewrite removeOverride_eq.
    destruct (await_ensureDb env w) as [[e'|v] w1]; simpl in *; congruence.
Qed.

Lemma promise_state_settle c p r a :
  attempts c !! p = Some a →
  promise_state (settle p r c) p =
  match r with inl e => Rejected e | inr v => Fulfilled v end.
Proof.
  intros Ha. unfold promise_state, settle. simpl.
  by rewrite list_lookup_alter_eq, Ha.
Qed.

(** C8.  Let [c] be a state of the connection guard that calls of
    [ensureDb] and reports of the driver lead to from process start.
    - Nothing connects at start, and only a call of [ensureDb] adds an
      attempt.
    - At most one attempt of [c] is under way or has connected; all others
      have failed.
    - Every attempt carries both timeouts, 3000 ms each.
    - With the URI set, no connection and no cached promise, a call starts
      an attempt, caches its promise and awaits it.
    - While an attempt [p] is under way a call changes nothing and awaits
      [p].
    - When an attempt [p] under way fails with [err], the guard is cleared,
      a caller awaiting [p] gets [err] thrown, and the next call starts one
      more attempt; a helper whose [await ensureDb()] throws, throws the
      same error.
    - When it connects, a caller awaiting [p] gets [true]. *)
Theorem ensureDb_connect_once u es :
  let c := run_events es (init_conn u) in
  (attempts (init_conn u) = [] ∧
   ∀ e c0, e ≠ CallEnsureDb →
           length (attempts (step e c0)) = length (attempts c0)) ∧
  length (filter live (attempts c)) ≤ 1 ∧
  Forall timeouts_3000 (attempts c) ∧
  (unset (MONGO_URI c) = false → readyState c ≠ 1 →
   connectingPromise c = None →
   (ensureDb c).1 = Awaits (length (attempts c)) ∧
   connectingPromise (ensureDb c).2 = Some (length (attempts c)) ∧
   attempts (ensureDb c).2 =
     attempts c ++ [mkAttempt (default "" (MONGO_URI c))
                              (mkOptions 3000 3000) Pending]) ∧
  (∀ p, settled <$> attempts c !! p = Some Pending →
        unset (MONGO_URI c) = false → readyState c ≠ 1 →
        ensureDb c = (Awaits p, c)) ∧
  (∀ p err, settled <$> attempts c !! p = Some Pending →
     let c' := step (ConnectFailed p err) c in
     connectingPromise c' = None ∧
     awaited c' (Awaits p) = Some (inl err) ∧
     (unset (MONGO_URI c') = false → readyState c' ≠ 1 →
      (ensureDb c').1 = Awaits (length (attempts c')) ∧
      length (attempts (ensureDb c').2) = S (length (attempts c')))) ∧
  (∀ env w e, (await_ensureDb env w).1 = inl e →
     ∀ la lo da values usr,
       (getLatestOverride la lo da usr env w).1 = inl e ∧
       (addOverride la lo da values usr env w).1 = inl e ∧
       (removeOverride la lo da usr env w).1 = inl e) ∧
  (∀ p, settled <$> attempts c !! p = Some Pending →
     let c' := step (Connected p) c in
     readyState c' = 1 ∧ connectingPromise c' = Some p ∧
     awaited c' (Awaits p) = Some (inr true)).
Proof.
  intros c.
  assert (Hinv : guard_inv c) by apply guard_inv_run, guard_inv_init.
  split; [split; [done|apply step_attempts_length]|].
  split; [by apply guard_inv_live|].
  split; [apply Hinv|].
  split.
  { intros Hu Hrs Hg. by rewrite ensureDb_starts. }
  split.
  { intros p Hp Hu Hrs.
    destruct (guard_inv_pending c p Hinv Hp) as (_ & _ & _ & _ & Hg & _).
    by apply ensureDb_shares. }
  split.
  { intros p err Hp.
    destruct (attempts c !! p) as [a|] eqn:Ha; [|done].
    assert (step (ConnectFailed p err) c =
            settle p (inl err)
              (mkConn (MONGO_URI c) (readyState c) None (attempts c))) as ->.
    { simpl. by rewrite Ha, Hp. }
    split; [done|]. split.
    - simpl. by erewrite promise_state_settle.
    - intros Hu Hrs. rewrite ensureDb_starts by done. simpl.
      split; [done|]. rewrite length_app. simpl. lia. }
  split.
  { intros env w e He la lo da values usr.
    destruct (helpers_rethrow env w e He) as (Hget & Hadd & Hrem).
    by rewrite Hget, Hadd, Hrem. }
  intros p Hp.
  destruct (guard_inv_pending c p Hinv Hp) as (_ & _ & _ & _ & Hg & _).
  destruct (attempts c !! p) as [a|] eqn:Ha; [|done].
  assert (step (Connected p) c =
          settle p (inr true) (set_readyState 1 c)) as ->.
  { simpl. by rewrite Ha, Hp. }
  split; [done|]. split; [done|].
  simpl. by erewrite promise_state_settle.
Qed.

Lemma ensureDb_connect_once_witness :
  let u := Some "mongodb://db.example/weatherio" in
  let c0 := run_events [] (init_conn u) in
  let c1 := run_events [CallEnsureDb] (init_conn u) in
  let c2 := step (ConnectFailed 0 "ETIMEDOUT") c1 in
  ((ensureDb c0).1 = Awaits 0 ∧
   connectingPromise (ensureDb c0).2 = Some 0 ∧
   attempts (ensureDb c0).2 =
     [mkAttempt "mongodb://db.example/weatherio" (mkOptions 3000 3000)
                Pending]) ∧
  ensureDb c1 = (Awaits 0, c1) ∧
  (connectingPromise c2 = None ∧
   awaited c2 (Awaits 0) = Some (inl "ETIMEDOUT") ∧
   (ensureDb c2).1 = Awaits 1 ∧
   length (attempts (ensureDb c2).2) = 2) ∧
  awaited (step (Connected 0) c1) (Awaits 0) = Some (inr true).
Proof.
  intros u c0 c1 c2.
  destruct (ensureDb_connect_once u []) as (_ & _ & _ & Hstart & _).
  destruct (ensureDb_connect_once u [CallEnsureDb])
    as (_ & _ & _ & _ & Hshare & Hfail & _ & Hok).
  split; [|split; [|split]].
  - apply Hstart; [reflexivity|discriminate|reflexivity].
  - apply Hshare; [reflexivity|reflexivity|discriminate].
  - destruct (Hfail 0 "ETIMEDOUT" eq_refl) as (Hg & Ha & Hretry).
    split; [exact Hg|]. split; [exact Ha|].
    apply Hretry; [reflexivity|discriminate].
  - apply (Hok 0 eq_refl).
Defined.

(** Three requests while the first attempt is under way: one attempt.  A
    failure and a further request: a second attempt, now the cached one. *)
Example ensureDb_three_callers :
  let c := run_events [CallEnsureDb; CallEnsureDb; CallEnsureDb]
             (init_conn (Some "mongodb://db.example/weatherio")) in
  length (attempts c) = 1 ∧ connectingPromise c = Some 0.
Proof. vm_compute. auto. Qed.

Example ensureDb_retry :
  let c := run_events [CallEnsureDb; ConnectFailed 0 "ETIMEDOUT";
                       CallEnsureDb; CallEnsureDb]
             (init_conn (Some "mongodb://db.example/weatherio")) in
  settled <$> attempts c = [Rejected "ETIMEDOUT"; Pending] ∧
  connectingPromise c = Some 1.
Proof. vm_compute. auto. Qed.

(** After a connection that dropped, a request gets the cached promise:
    nothing connects again. *)
Example ensureDb_after_drop :
  let c := run_events [CallEnsureDb; Connected 0; ReadyState 0; CallEnsureDb]
             (init_conn (Some "mongodb://db.example/weatherio")) in
  settled <$> attempts c = [Fulfilled true] ∧
  ensureDb c = (Awaits 0, c) ∧ awaited c (Awaits 0) = Some (inr true).
Proof. vm_compute. auto. Qed.

(** * Further properties of the helpers *)

(** ** A document added is the one read back *)

Lemma active_of_key_after_add la lo da values u env coll :
  active_of_key la lo da u
    (updateMany (by_key la lo da u) (set_active false) coll
     ++ [newOverride la lo da values u env coll])
  = [newOverride la lo da values u env coll].
Proof.
  unfold active_of_key. rewrite filter_app.
  fold (active_of_key la lo da u
          (updateMany (by_key la lo da u) (set_active false) coll)).
  rewrite updateMany_no_active. simpl.
  by rewrite filter_cons_True by apply newOverride_matches.
Qed.

(** X1.  From a connectable state and with nothing rejecting,
    [getLatestOverride] right after [addOverride] on the same key resolves
    to the very document [addOverride] resolved to, whatever the collection
    held before. *)
Theorem add_then_getLatest la lo da values u env1 env2 w :
  connectable (conn w) → fault_free env1 → fault_free env2 →
  ∃ d, (addOverride la lo da values u env1 w).1 = inr d ∧
       (getLatestOverride la lo da u env2
          (addOverride la lo da values u env1 w).2).1 = inr (Some d).
Proof.
  intros Hc [Hce1 Hdb1] [Hce2 Hdb2].
  destruct (connectable_ready env1 w Hc Hce1) as [Hready1 Hc1].
  rewrite (addOverride_ok la lo da values u env1 w Hready1 Hdb1). simpl.
  set (w1 := mkWorld _ _).
  destruct (connectable_ready env2 w1 Hc1 Hce2) as [Hready2 _].
  rewrite (getLatestOverride_ok la lo da u env2 w1 Hready2 (Hdb2 _)). simpl.
  eexists. split; [done|]. f_equal.
  unfold findOne_sort_version.
  fold (active_of_key la lo da u
          (updateMany (by_key la lo da u) (set_active false) (overrides w)
           ++ [newOverride la lo da values u env1 (overrides w)])).
  by rewrite active_of_key_after_add.
Qed.

Lemma add_then_getLatest_witness :
  ∃ d, (addOverride "12.0" "77.0" "2024-01-01" (JNum 30) "a@x.com" env_ok
          world_two_active).1 = inr d ∧
       (getLatestOverride "12.0" "77.0" "2024-01-01" "a@x.com" env_ok
          (addOverride "12.0" "77.0" "2024-01-01" (JNum 30) "a@x.com" env_ok
             world_two_active).2).1 = inr (Some d).
Proof.
  apply (add_then_getLatest "12.0" "77.0" "2024-01-01" (JNum 30) "a@x.com"
           env_ok env_ok world_two_active).
  - apply init_conn_connectable. discriminate.
  - split; [reflexivity|intros c; reflexivity].
  - split; [reflexivity|intros c; reflexivity].
Defined.

(** ** What a call does to the collection *)

Lemma updateMany_Forall2 f coll :
  Forall2 evolves coll (updateMany f (set_active false) coll).
Proof.
  unfold updateMany. induction coll as [|d coll IH]; [constructor|].
  rewrite fmap_cons. constructor; [|done].
  case_decide; [apply evolves_set_active_false|apply evolves_refl].
Qed.

Lemma Forall2_evolves_refl coll : Forall2 evolves coll coll.
Proof. induction coll; constructor; [apply evolves_refl|done]. Qed.

Lemma findOneAndUpdate_Forall2 f coll :
  Forall2 evolves coll (findOneAndUpdate f (set_active false) coll).2.
Proof.
  induction coll as [|d coll IH]; simpl; [constructor|].
  case_decide; simpl.
  - constructor; [apply evolves_set_active_false|apply Forall2_evolves_refl].
  - destruct (findOneAndUpdate f (set_active false) coll) as [r coll'].
    simpl in *. constructor; [apply evolves_refl|done].
Qed.

Lemma evolves_matches la lo da u d d' :
  evolves d d' →
  (matches (by_key la lo da u) d' ↔ matches (by_key la lo da u) d).
Proof. intros [-> _]. apply matches_set_active. Qed.

Lemma Forall2_evolves_of_key la lo da u l l' :
  Forall2 evolves l l' →
  Forall2 evolves (of_key la lo da u l) (of_key la lo da u l').
Proof.
  unfold of_key. induction 1 as [|d d' l l' Hd _ IH]; [constructor|].
  pose proof (evolves_matches la lo da u d d' Hd) as Hm.
  destruct (decide (matches (by_key la lo da u) d)) as [Hyes|Hno].
  - rewrite !filter_cons_True by tauto. by constructor.
  - rewrite !filter_cons_False by tauto. done.
Qed.

Lemma Forall2_evolves_versions la lo da u l l' :
  Forall2 evolves l l' →
  versions_of la lo da u l' = versions_of la lo da u l.
Proof.
  intros H%(Forall2_evolves_of_key la lo da u). unfold versions_of.
  induction H as [|d d' k k' [Hd _] _ IH]; [done|].
  rewrite !fmap_cons, IH. f_equal. by rewrite Hd.
Qed.

Lemma Forall2_evolves_active la lo da u l l' :
  Forall2 evolves l l' →
  length (active_of_key la lo da u l') ≤ length (active_of_key la lo da u l).
Proof.
  unfold active_of_key. induction 1 as [|d d' l l' Hd _ IH]; [done|].
  pose proof (evolves_matches la lo da u d d' Hd) as Hm.
  destruct Hd as [_ Hfalse].
  destruct (decide (matches (by_key_active la lo da u) d')) as [Hyes|Hno].
  - rewrite filter_cons_True by done.
    apply matches_active_key in Hyes as [Hk Ha].
    rewrite filter_cons_True; [simpl; lia|].
    apply matches_active_key. split; [tauto|].
    destruct (active d); [done|]. by rewrite Hfalse in Ha.
  - rewrite filter_cons_False by done.
    destruct (decide (matches (by_key_active la lo da u) d)).
    + rewrite filter_cons_True by done. simpl. lia.
    + by rewrite filter_cons_False.
Qed.

(** A call leaves the stored documents in place, changed in [active] at
    most; it appends a document exactly when it is an [addOverride] that
    resolves, and then after the bulk update of its key. *)
Lemma call_overrides c env w :
  (is_insert (call c env w).1 = false ∧
   Forall2 evolves (overrides w) (overrides (call c env w).2)) ∨
  (∃ la lo da values u,
     c = Add la lo da values u ∧
     (call c env w).1 =
       inr (Doc (newOverride la lo da values u env (overrides w))) ∧
     overrides (call c env w).2 =
       updateMany (by_key la lo da u) (set_active false) (overrides w)
       ++ [newOverride la lo da values u env (overrides w)]).
Proof.
  destruct c as [la lo da u|la lo da values u|la lo da u];
    unfold call, mbind, Async_bind, mret, Async_ret.
  - left. pose proof (getLatestOverride_overrides la lo da u env w) as Ho.
    destruct (getLatestOverride la lo da u env w) as [[e|r] w1];
      simpl in *; rewrite Ho; (split; [done|apply Forall2_evolves_refl]).
  - rewrite addOverride_eq.
    pose proof (await_ensureDb_overrides env w) as Ho.
    destruct (await_ensureDb env w) as [[err|v] w1]; simpl in *.
    { left. rewrite Ho. split; [done|apply Forall2_evolves_refl]. }
    destruct (db_error env FindOne).
    { left. simpl. rewrite Ho. split; [done|apply Forall2_evolves_refl]. }
    destruct (db_error env UpdateMany).
    { left. simpl. rewrite Ho. split; [done|apply Forall2_evolves_refl]. }
    rewrite Ho. destruct (db_error env Save); simpl.
    { left. split; [done|apply updateMany_Forall2]. }
    right. by exists la, lo, da, values, u.
  - left. pose proof (removeOverride_overrides la lo da u env w) as Ho.
    destruct (removeOverride la lo da u env w) as [[e|r] w1];
      simpl in *;
      (split; [done|];
       destruct Ho as [->| ->];
       [apply Forall2_evolves_refl|apply findOneAndUpdate_Forall2]).
Qed.

Lemma run_cons c env cs w :
  run ((c, env) :: cs) w =
  ((call c env w).1 :: (run cs (call c env w).2).1,
   (run cs (call c env w).2).2).
Proof.
  simpl. destruct (call c env w) as [r w1]. simpl.
  by destruct (run cs w1) as [rs w2].
Qed.

(** ** Documents are only ever appended *)

(** X2.  Over any calls, from any world and in any environments, the
    collection grows by exactly one document per [addOverride] that
    resolved: no call deletes a document, and a call that threw or was not
    an [addOverride] stores none. *)
Theorem run_length cs w :
  length (overrides (run cs w).2) =
  length (overrides w) + inserted (run cs w).1.
Proof.
  revert w. induction cs as [|[c env] cs IH]; intros w.
  - simpl. unfold inserted. simpl. lia.
  - rewrite run_cons. simpl. rewrite IH.
    unfold inserted. 
    destruct (call_overrides c env w)
      as [[Hno Hev]|(la & lo & da & values & u & _ & Hr & Ho)].
    + rewrite filter_cons_False by by rewrite Hno.
      apply Forall2_length in Hev. lia.
    + rewrite filter_cons_True by by rewrite Hr.
      rewrite Ho, length_app, updateMany_length. simpl. lia.
Qed.

(** ** Version numbers are never reused *)

Lemma top_version_versions l l' :
  version <$> l = version <$> l' →
  version <$> top_version l = version <$> top_version l'.
Proof.
  revert l'. induction l as [|d l IH]; intros [|d' l']; try done.
  rewrite !fmap_cons. intros [= Hd Hl]. specialize (IH l' Hl). simpl.
  destruct (top_version l) as [t|], (top_version l') as [t'|];
    simpl in IH; try done.
  - injection IH as IH. rewrite Hd, IH.
    by destruct (version d' <? version t')%Z; simpl; f_equal.
  - simpl. by f_equal.
Qed.

Lemma next_version_versions la lo da u coll coll' :
  versions_of la lo da u coll = versions_of la lo da u coll' →
  next_version la lo da u coll = next_version la lo da u coll'.
Proof.
  intros H%top_version_versions. unfold of_key in H.
  unfold next_version, findOne_sort_version.
  destruct (top_version (filter _ coll)), (top_version (filter _ coll'));
    simpl in H; try done.
  injection H as ->. done.
Qed.

(** X3.  A call that does not resolve to a new document (a
    [getLatestOverride], a [removeOverride], an [addOverride] that throws,
    even after its bulk update) leaves the versions of every key as they
    are, and with them the version the next [addOverride] on the key
    gives: removing a document does not free its version. *)
Theorem call_keeps_versions c env w la lo da u :
  is_insert (call c env w).1 = false →
  versions_of la lo da u (overrides (call c env w).2)
    = versions_of la lo da u (overrides w) ∧
  next_version la lo da u (overrides (call c env w).2)
    = next_version la lo da u (overrides w).
Proof.
  intros Hno.
  destruct (call_overrides c env w)
    as [[_ Hev]|(? & ? & ? & ? & ? & _ & Hr & _)].
  - pose proof (Forall2_evolves_versions la lo da u _ _ Hev) as Hv.
    split; [done|]. by apply next_version_versions.
  - by rewrite Hr in Hno.
Qed.

Lemma call_keeps_versions_witness :
  let c := Remove "12.0" "77.0" "2024-01-01" "a@x.com" in
  versions_of "12.0" "77.0" "2024-01-01" "a@x.com"
    (overrides (call c env_ok world_two_active).2)
    = versions_of "12.0" "77.0" "2024-01-01" "a@x.com"
        (overrides world_two_active) ∧
  next_version "12.0" "77.0" "2024-01-01" "a@x.com"
    (overrides (call c env_ok world_two_active).2)
    = next_version "12.0" "77.0" "2024-01-01" "a@x.com"
        (overrides world_two_active).
Proof.
  intros c.
  apply (call_keeps_versions c env_ok world_two_active
           "12.0" "77.0" "2024-01-01" "a@x.com").
  vm_compute. reflexivity.
Defined.

(** ** The two invariants of the collection *)

Lemma newOverride_key la lo da values u env coll la' lo' da' u' :
  matches (by_key la' lo' da' u') (newOverride la lo da values u env coll) →
  la' = la ∧ lo' = lo ∧ da' = da ∧ u' = u.
Proof. unfold matches. simpl. intros (-> & -> & -> & -> & _). done. Qed.

Lemma call_single_active c env w :
  single_active (overrides w) → single_active (overrides (call c env w).2).
Proof.
  intros Hinv la' lo' da' u'.
  destruct (call_overrides c env w)
    as [[_ Hev]|(la & lo & da & values & u & _ & _ & ->)].
  - pose proof (Forall2_evolves_active la' lo' da' u' _ _ Hev).
    specialize (Hinv la' lo' da' u'). lia.
  - set (d := newOverride la lo da values u env (overrides w)).
    destruct (decide (matches (by_key_active la' lo' da' u') d)) as [Hd|Hd].
    + apply matches_active_key in Hd as [Hd _].
      apply newOverride_key in Hd as (-> & -> & -> & ->).
      unfold d. by rewrite active_of_key_after_add.
    + unfold active_of_key. rewrite filter_app, length_app.
      rewrite (filter_cons_False _ d) by done. simpl.
      pose proof (Forall2_evolves_active la' lo' da' u' _ _
                    (updateMany_Forall2 (by_key la lo da u) (overrides w))).
      specialize (Hinv la' lo' da' u'). unfold active_of_key in *. lia.
Qed.

(** X4.  The single-active invariant is kept by every call: from a
    collection in which every key has at most one active document, any
    calls in any environments (also ones in which calls reject half way)
    lead to a collection in which every key has at most one. *)
Theorem run_single_active cs w :
  single_active (overrides w) → single_active (overrides (run cs w).2).
Proof.
  revert w. induction cs as [|[c env] cs IH]; intros w Hinv; [done|].
  rewrite run_cons. simpl. by apply IH, call_single_active.
Qed.

Lemma run_single_active_witness :
  single_active
    (overrides
       (run [(Add "12.0" "77.0" "2024-01-01" (JNum 10) "a@x.com", env_ok);
             (Add "12.0" "77.0" "2024-01-01" (JNum 20) "a@x.com",
              mkEnv None (λ c, if decide (c = Save) then Some "ECONNRESET"
                               else None) "2024-01-02T00:00:00.000Z");
             (Add "12.0" "77.0" "2024-01-01" (JNum 30) "b@x.com", env_ok);
             (Remove "12.0" "77.0" "2024-01-01" "a@x.com", env_ok)]
            world_start).2).
Proof.
  apply run_single_active.
  intros la lo da u. simpl. lia.
Defined.

(** *** Number arithmetic *)

(** Up to 2^53 in magnitude an integer is a double. *)
Lemma round_double_exact z : (Z.abs z ≤ 2 ^ 53)%Z → round_double z = z.
Proof.
  intros Hz. unfold round_double.
  destruct (decide (Z.abs z = 2 ^ 53)%Z) as [Heq|Hne].
  - assert (z = 2 ^ 53 ∨ z = - 2 ^ 53)%Z as [->| ->] by lia; reflexivity.
  - assert (Z.log2 (Z.abs z) ≤ 52)%Z as Hlog.
    { destruct (decide (Z.abs z = 0)%Z) as [->|Hpos]; [done|].
      assert (Z.log2 (Z.abs z) < 53)%Z; [|lia].
      apply Z.log2_lt_pow2; lia. }
    destruct (Z.leb_spec (Z.log2 (Z.abs z) - 52) 0); [done|lia].
Qed.

Lemma number_add_1_exact v :
  (Z.abs v < 2 ^ 53)%Z → number_add v 1 = (v + 1)%Z.
Proof. intros Hv. apply round_double_exact. lia. Qed.

(** *** Version numbers *)

Lemma top_version_seq l a n :
  version <$> l = Z.of_nat <$> seq a n →
  version <$> top_version l =
  match n with 0 => None | S m => Some (Z.of_nat (a + m)) end.
Proof.
  revert a n. induction l as [|d l IH]; intros a [|n]; try done.
  rewrite fmap_cons. simpl. intros [= Hd Hl].
  specialize (IH (S a) n Hl).
  destruct (top_version l) as [t|]; simpl in IH.
  - destruct n as [|m]; [done|]. injection IH as IH.
    rewrite Hd, IH.
    rewrite (proj2 (Z.ltb_lt _ _)) by lia.
    simpl. rewrite IH. do 2 f_equal. lia.
  - destruct n as [|m]; [|done]. simpl. rewrite Hd. do 2 f_equal. lia.
Qed.

Lemma next_version_none la lo da u coll :
  of_key la lo da u coll = [] → next_version la lo da u coll = 1%Z.
Proof.
  intros H. unfold next_version.
  by apply findOne_sort_version_None in H as ->.
Qed.

(** With versions 1 to [n] stored for a key, and [n] below 2^53, the next
    one is [n + 1]. *)
Lemma next_version_seq la lo da u coll n :
  versions_of la lo da u coll = Z.of_nat <$> seq 1 n →
  (Z.of_nat n < 2 ^ 53)%Z →
  next_version la lo da u coll = Z.of_nat (S n).
Proof.
  intros Hv%top_version_seq Hn.
  unfold next_version, findOne_sort_version, of_key in *.
  destruct (top_version (filter _ coll)) as [t|]; destruct n as [|m];
    simpl in Hv; try done.
  injection Hv as Hv. rewrite Hv, number_add_1_exact by lia. lia.
Qed.

Lemma versions_of_after_add la lo da values u env coll :
  versions_of la lo da u
    (updateMany (by_key la lo da u) (set_active false) coll
     ++ [newOverride la lo da values u env coll])
  = versions_of la lo da u coll ++ [next_version la lo da u coll].
Proof.
  unfold versions_of at 1. unfold of_key. rewrite filter_app, fmap_app.
  fold (of_key la lo da u
          (updateMany (by_key la lo da u) (set_active false) coll)).
  fold (versions_of la lo da u
          (updateMany (by_key la lo da u) (set_active false) coll)).
  rewrite (Forall2_evolves_versions la lo da u coll)
    by apply updateMany_Forall2.
  rewrite filter_cons_True; [done|].
  by apply (proj1 (matches_active_key _ _ _ _ _)), newOverride_matches.
Qed.

Lemma versions_of_after_add_other la lo da values u env coll la' lo' da' u' :
  ¬ matches (by_key la' lo' da' u')
      (newOverride la lo da values u env coll) →
  versions_of la' lo' da' u'
    (updateMany (by_key la lo da u) (set_active false) coll
     ++ [newOverride la lo da values u env coll])
  = versions_of la' lo' da' u' coll.
Proof.
  intros Hd. unfold versions_of at 1. unfold of_key.
  rewrite filter_app, fmap_app.
  fold (of_key la' lo' da' u'
          (updateMany (by_key la lo da u) (set_active false) coll)).
  fold (versions_of la' lo' da' u'
          (updateMany (by_key la lo da u) (set_active false) coll)).
  rewrite (Forall2_evolves_versions la' lo' da' u' coll)
    by apply updateMany_Forall2.
  rewrite filter_cons_False by done. simpl. apply app_nil_r.
Qed.

Lemma versions_of_length la lo da u coll :
  length (versions_of la lo da u coll) = length (of_key la lo da u coll).
Proof. unfold versions_of. apply length_fmap. Qed.

(** Calls in a row on a key that holds the versions 1 to [n] count on from
    [n + 1], as long as they stay within 2^53. *)
Lemma run_add_calls la lo da u args w n :
  connectable (conn w) → Forall (λ a, fault_free a.2) args →
  versions_of la lo da u (overrides w) = Z.of_nat <$> seq 1 n →
  (Z.of_nat (n + length args) ≤ 2 ^ 53)%Z →
  ∃ ds, (run (add_calls la lo da u args) w).1 = (λ d, inr (Doc d)) <$> ds ∧
        version <$> ds = Z.of_nat <$> seq (S n) (length args).
Proof.
  intros Hc Hff. revert w n Hc.
  induction Hff as [|[values env] args [Hce Hdb] _ IH]; intros w n Hc Hv Hn.
  - by exists [].
  - simpl in Hce, Hdb, Hn.
    destruct (connectable_ready env w Hc Hce) as [Hready Hc'].
    unfold add_calls. rewrite fmap_cons, run_cons. simpl.
    unfold mbind, Async_bind.
    rewrite (addOverride_ok la lo da values u env w Hready Hdb).
    unfold mret, Async_ret. simpl.
    set (d := newOverride la lo da values u env (overrides w)).
    set (w1 := mkWorld _ _).
    assert (version d = Z.of_nat (S n)) as Hd.
    { unfold d. simpl. apply next_version_seq; [done|lia]. }
    destruct (IH w1 (S n) Hc') as (ds & Hrun & Hvs).
    { unfold w1, d. cbn [overrides].
      rewrite versions_of_after_add, Hv, seq_S, fmap_app.
      by rewrite (next_version_seq la lo da u (overrides w) n Hv) by lia. }
    { lia. }
    fold (add_calls la lo da u args). rewrite Hrun.
    exists (d :: ds). split; [done|].
    by rewrite fmap_cons, Hvs, Hd.
Qed.

(** C2, as the code has it.  When the database answers, the version of the
    document [addOverride] inserts is 1 when the key has no document.
    Otherwise it is the version of a document of the key, active or not,
    that no document of the key exceeds, plus 1 as JavaScript adds Numbers;
    that is one more while the version is below 2^53 in magnitude.  At
    most 2^53 calls of [addOverride] on one key, run one after the other
    from a connectable state that holds no document of the key and with
    nothing rejecting, all resolve, and the [i]-th of them (from 0) gives
    version [i + 1]. *)
Theorem addOverride_versions la lo da u :
  (∀ values env w,
     db_ready env w → (∀ c, db_error env c = None) →
     ∃ d, (addOverride la lo da values u env w).1 = inr d ∧
          (of_key la lo da u (overrides w) = [] → version d = 1%Z) ∧
          (of_key la lo da u (overrides w) ≠ [] →
           ∃ l, l ∈ overrides w ∧ matches (by_key la lo da u) l ∧
                (∀ e, e ∈ overrides w → matches (by_key la lo da u) e →
                      (version e ≤ version l)%Z) ∧
                version d = number_add (version l) 1 ∧
                ((Z.abs (version l) < 2 ^ 53)%Z →
                 version d = (version l + 1)%Z))) ∧
  (∀ args w,
     connectable (conn w) → Forall (λ a, fault_free a.2) args →
     of_key la lo da u (overrides w) = [] →
     (Z.of_nat (length args) ≤ 2 ^ 53)%Z →
     ∃ ds, (run (add_calls la lo da u args) w).1
             = (λ d, inr (Doc d)) <$> ds ∧
           length ds = length args ∧
           ∀ i d, ds !! i = Some d → version d = Z.of_nat (i + 1)).
Proof.
  split.
  - intros values env w Hready Hdb.
    rewrite (addOverride_ok la lo da values u env w Hready Hdb). simpl.
    eexists. split; [done|]. split; [apply next_version_none|].
    intros Hne.
    change (version (newOverride la lo da values u env (overrides w)))
      with (next_version la lo da u (overrides w)).
    unfold next_version.
    destruct (findOne_sort_version (by_key la lo da u) (overrides w))
      as [l|] eqn:Hl.
    + apply findOne_sort_version_Some in Hl as (Hin & Hm & Hmax).
      exists l. split; [done|]. split; [done|]. split; [done|].
      split; [done|]. apply number_add_1_exact.
    + by apply findOne_sort_version_None in Hl.
  - intros args w Hc Hff Hnone Hn.
    destruct (run_add_calls la lo da u args w 0 Hc Hff) as (ds & Hrun & Hvs).
    { unfold versions_of. by rewrite Hnone. }
    { done. }
    exists ds. split; [done|].
    assert (length ds = length args) as Hlen.
    { apply (f_equal length) in Hvs.
      by rewrite !length_fmap, length_seq in Hvs. }
    split; [done|]. intros i d Hi.
    apply (f_equal (λ l, l !! i)) in Hvs.
    rewrite !list_lookup_fmap, Hi in Hvs.
    rewrite lookup_seq_lt in Hvs by (apply lookup_lt_Some in Hi; lia).
    simpl in Hvs. injection Hvs as ->. f_equal. lia.
Qed.

Lemma addOverride_versions_witness :
  (∃ d, (addOverride "12.0" "77.0" "2024-01-01" (JNum 30) "a@x.com" env_ok
           world_two_active).1 = inr d ∧
        (of_key "12.0" "77.0" "2024-01-01" "a@x.com"
           (overrides world_two_active) = [] → version d = 1%Z) ∧
        (of_key "12.0" "77.0" "2024-01-01" "a@x.com"
           (overrides world_two_active) ≠ [] →
         ∃ l, l ∈ overrides world_two_active ∧
              matches (by_key "12.0" "77.0" "2024-01-01" "a@x.com") l ∧
              (∀ e, e ∈ overrides world_two_active →
                    matches (by_key "12.0" "77.0" "2024-01-01" "a@x.com") e →
                    (version e ≤ version l)%Z) ∧
              version d = number_add (version l) 1 ∧
              ((Z.abs (version l) < 2 ^ 53)%Z →
               version d = (version l + 1)%Z))) ∧
  (∃ ds, (run (add_calls "12.0" "77.0" "2024-01-01" "a@x.com"
                 [(JNum 10, env_ok); (JNum 20, env_ok); (JNum 30, env_ok)])
              world_start).1 = (λ d, inr (Doc d)) <$> ds ∧
         length ds = 3 ∧
         ∀ i d, ds !! i = Some d → version d = Z.of_nat (i + 1)).
Proof.
  destruct (addOverride_versions "12.0" "77.0" "2024-01-01" "a@x.com")
    as [H1 H2].
  split.
  - apply H1.
    + exists true. vm_compute. reflexivity.
    + intros c. reflexivity.
  - apply H2.
    + apply init_conn_connectable. discriminate.
    + repeat constructor.
    + reflexivity.
    + simpl. lia.
Defined.

(** C2 as stated fails where the highest version of the key is 2^53:
    [addOverride] resolves, and the version it gives is not one more, it
    is 2^53 again. *)
Lemma addOverride_versions_counterexample :
  ¬ ∃ d, (addOverride "12.0" "77.0" "2024-01-01" (JNum 30) "a@x.com" env_ok
            world_2_53).1 = inr d ∧
         version d = (9007199254740992 + 1)%Z.
Proof. vm_compute. intros (d & [= <-] & Hv). discriminate Hv. Qed.

(** What the call resolves to there. *)
Example addOverride_at_2_53 :
  (addOverride "12.0" "77.0" "2024-01-01" (JNum 30) "a@x.com" env_ok
     world_2_53).1
  = inr (mkOverride "12.0" "77.0" "2024-01-01" (JNum 30)
                    "2024-01-01T00:00:00.000Z" "a@x.com"
                    9007199254740992 true).
Proof. vm_compute. reflexivity. Qed.

(** Doubles above 2^53: a tie goes to the even mantissa. *)
Example number_add_above_2_53 :
  number_add 9007199254740992 1 = 9007199254740992%Z ∧
  number_add 9007199254740994 1 = 9007199254740996%Z ∧
  number_add 9007199254740991 1 = 9007199254740992%Z ∧
  number_add (-9007199254740992) 1 = (-9007199254740991)%Z.
Proof. vm_compute. auto. Qed.

(** Three calls in a row on an empty collection. *)
Example addOverride_three_versions :
  (λ r, match r with inr (Doc d) => Some (version d, active d) | _ => None end)
    <$> (run (add_calls "12.0" "77.0" "2024-01-01" "a@x.com"
                [(JNum 10, env_ok); (JNum 20, env_ok); (JNum 30, env_ok)])
             world_start).1
  = [Some (1%Z, true); Some (2%Z, true); Some (3%Z, true)].
Proof. vm_compute. reflexivity. Qed.

(** *** The version invariant *)

Lemma call_versioned c env w :
  versioned (overrides w) →
  (Z.of_nat (length (overrides w)) < 2 ^ 53)%Z →
  versioned (overrides (call c env w).2).
Proof.
  intros Hinv Hlen la' lo' da' u'.
  destruct (call_overrides c env w)
    as [[_ Hev]|(la & lo & da & values & u & _ & _ & ->)].
  - pose proof (Forall2_evolves_versions la' lo' da' u' _ _ Hev) as Hv.
    rewrite <- (versions_of_length _ _ _ _ (overrides (call c env w).2)), Hv.
    rewrite versions_of_length. apply Hinv.
  - set (d := newOverride la lo da values u env (overrides w)).
    destruct (decide (matches (by_key la' lo' da' u') d)) as [Hd|Hd].
    + apply newOverride_key in Hd as (-> & -> & -> & ->).
      rewrite <- versions_of_length. unfold d.
      rewrite versions_of_after_add, length_app, versions_of_length.
      simpl. rewrite Nat.add_1_r, seq_S, fmap_app, <- Hinv. simpl.
      do 2 f_equal. apply next_version_seq; [apply Hinv|].
      pose proof (length_filter (matches (by_key la lo da u)) (overrides w)).
      unfold of_key. lia.
    + rewrite <- versions_of_length. unfold d.
      rewrite versions_of_after_add_other by done.
      rewrite versions_of_length. apply Hinv.
Qed.

Lemma call_length c env w :
  length (overrides (call c env w).2) ≤ S (length (overrides w)).
Proof.
  destruct (call_overrides c env w)
    as [[_ Hev]|(la & lo & da & values & u & _ & _ & ->)].
  - apply Forall2_length in Hev. lia.
  - rewrite length_app, updateMany_length. simpl. lia.
Qed.

(** X5.  The version invariant is kept by every call: from a collection in
    which the documents of every key carry the versions 1, 2, .., n in
    natural order (an empty one, say), any calls on any keys in any
    environments lead to such a collection again, as long as documents and
    calls together stay within 2^53, where adding 1 is exact; so no two
    documents of a key share a version, whatever fails in between. *)
Theorem run_versioned cs w :
  versioned (overrides w) →
  (Z.of_nat (length (overrides w) + length cs) ≤ 2 ^ 53)%Z →
  versioned (overrides (run cs w).2).
Proof.
  revert w. induction cs as [|[c env] cs IH]; intros w Hinv Hlen; [done|].
  rewrite run_cons. simpl in *. apply IH.
  - apply call_versioned; [done|lia].
  - pose proof (call_length c env w). lia.
Qed.

Lemma run_versioned_witness :
  versioned
    (overrides
       (run [(Add "12.0" "77.0" "2024-01-01" (JNum 10) "a@x.com", env_ok);
             (Add "12.0" "77.0" "2024-01-01" (JNum 20) "a@x.com",
              mkEnv None (λ c, if decide (c = Save) then Some "ECONNRESET"
                               else None) "2024-01-02T00:00:00.000Z");
             (Remove "12.0" "77.0" "2024-01-01" "a@x.com", env_ok);
             (Add "12.0" "77.0" "2024-01-01" (JNum 30) "a@x.com", env_ok)]
            world_start).2).
Proof.
  apply run_versioned.
  - intros la lo da u. reflexivity.
  - simpl. lia.
Defined.

(** After an insert that failed and a removal the next version is 2. *)
Example run_versioned_run :
  versions_of "12.0" "77.0" "2024-01-01" "a@x.com"
    (overrides
       (run [(Add "12.0" "77.0" "2024-01-01" (JNum 10) "a@x.com", env_ok);
             (Add "12.0" "77.0" "2024-01-01" (JNum 20) "a@x.com",
              mkEnv None (λ c, if decide (c = Save) then Some "ECONNRESET"
                               else None) "2024-01-02T00:00:00.000Z");
             (Remove "12.0" "77.0" "2024-01-01" "a@x.com", env_ok);
             (Add "12.0" "77.0" "2024-01-01" (JNum 30) "a@x.com", env_ok)]
            world_start).2)
  = [1%Z; 2%Z].
Proof. vm_compute. reflexivity. Qed.

(** ** One removal, one document *)

(** X6.  When the database answers, [removeOverride] lowers the number of
    active documents of its key by exactly one, or leaves it at zero: a key
    that has [k] active documents needs [k] calls until none is active. *)
Theorem removeOverride_count la lo da u env w :
  db_ready env w → db_error env FindOneAndUpdate = None →
  length (active_of_key la lo da u
            (overrides (removeOverride la lo da u env w).2))
  = Nat.pred (length (active_of_key la lo da u (overrides w))).
Proof.
  intros Hready Hfu. rewrite (removeOverride_ok _ _ _ _ _ _ Hready Hfu).
  simpl.
  destruct (findOneAndUpdate _ _ (overrides w)) as [[r|] coll] eqn:Hf; simpl.
  - by rewrite (findOneAndUpdate_active_count _ _ _ _ _ _ _ Hf).
  - apply findOneAndUpdate_None in Hf as [-> Hnil].
    unfold active_of_key. by rewrite Hnil.
Qed.

Lemma removeOverride_count_witness :
  length (active_of_key "12.0" "77.0" "2024-01-01" "a@x.com"
            (overrides (removeOverride "12.0" "77.0" "2024-01-01" "a@x.com"
                          env_ok world_two_active).2))
  = Nat.pred (length (active_of_key "12.0" "77.0" "2024-01-01" "a@x.com"
                        (overrides world_two_active))).
Proof.
  apply (removeOverride_count "12.0" "77.0" "2024-01-01" "a@x.com" env_ok
           world_two_active).
  - exists true. vm_compute. reflexivity.
  - reflexivity.
Defined.

(** * Further properties of the connection guard *)

(** X7.  Without [MONGO_URI] (undefined or empty) every helper throws
    'MONGO_URI not set' and leaves the whole state as it is: no connection
    is attempted and the collection is not read. *)
Theorem helpers_without_uri env w :
  unset (MONGO_URI (conn w)) = true →
  (∀ la lo da u,
     getLatestOverride la lo da u env w = (inl "MONGO_URI not set", w)) ∧
  (∀ la lo da values u,
     addOverride la lo da values u env w = (inl "MONGO_URI not set", w)) ∧
  (∀ la lo da u,
     removeOverride la lo da u env w = (inl "MONGO_URI not set", w)).
Proof.
  intros Hu.
  assert (await_ensureDb env w = (inl "MONGO_URI not set", w)) as Ha.
  { unfold await_ensureDb, ensureDb. rewrite Hu. by destruct w. }
  destruct (helpers_rethrow env w "MONGO_URI not set") as (Hg & Hadd & Hr).
  { by rewrite Ha. }
  rewrite Ha in Hg, Hadd, Hr. done.
Qed.

Lemma helpers_without_uri_witness :
  let w := mkWorld (init_conn (Some "")) (overrides world_two_active) in
  (∀ la lo da u,
     getLatestOverride la lo da u env_ok w = (inl "MONGO_URI not set", w)) ∧
  (∀ la lo da values u,
     addOverride la lo da values u env_ok w
       = (inl "MONGO_URI not set", w)) ∧
  (∀ la lo da u,
     removeOverride la lo da u env_ok w = (inl "MONGO_URI not set", w)).
Proof.
  intros w. apply (helpers_without_uri env_ok w). reflexivity.
Defined.

(** X8.  A helper that has to connect and whose attempt fails throws the
    error of the attempt and leaves the collection alone; the guard is
    clear again, so the next helper call starts a new attempt and goes
    through when that one connects. *)
Theorem call_connect_fails c env w err :
  connectable (conn w) → readyState (conn w) ≠ 1 →
  connect_error env = Some err →
  (call c env w).1 = inl err ∧
  overrides (call c env w).2 = overrides w ∧
  connectingPromise (conn (call c env w).2) = None ∧
  ∀ env2, connect_error env2 = None → db_ready env2 (call c env w).2.
Proof.
  intros [Hu [Hrs|Hg]] Hrs' Hce; [done|].
  assert (∃ c', await_ensureDb env w = (inl err, mkWorld c' (overrides w)) ∧
                connectable c' ∧ connectingPromise c' = None)
    as (c' & Ha & Hc' & Hg').
  { unfold await_ensureDb. rewrite ensureDb_starts by done.
    unfold promise_state. simpl.
    rewrite lookup_app_r, Nat.sub_diag by lia. simpl. rewrite Hce. simpl.
    eexists. split; [done|]. split; [|done]. split; [done|by right]. }
  destruct (helpers_rethrow env w err) as (Hget & Hadd & Hrem).
  { by rewrite Ha. }
  assert ((call c env w) = (inl err, mkWorld c' (overrides w))) as ->.
  { destruct c; unfold call, mbind, Async_bind;
      rewrite ?Hget, ?Hadd, ?Hrem, Ha; done. }
  simpl. repeat (split; [done|]).
  intros env2 Hce2. by apply connectable_ready.
Qed.

Lemma call_connect_fails_witness :
  let c := Add "12.0" "77.0" "2024-01-01" (JNum 30) "a@x.com" in
  let env := mkEnv (Some "ETIMEDOUT") (λ _, None)
                   "2024-01-01T00:00:00.000Z" in
  (call c env world_two_active).1 = inl "ETIMEDOUT" ∧
  overrides (call c env world_two_active).2 = overrides world_two_active ∧
  connectingPromise (conn (call c env world_two_active).2) = None ∧
  ∀ env2, connect_error env2 = None →
          db_ready env2 (call c env world_two_active).2.
Proof.
  intros c env.
  apply (call_connect_fails c env world_two_active "ETIMEDOUT").
  - apply init_conn_connectable. discriminate.
  - discriminate.
  - reflexivity.
Defined.

Lemma step_MONGO_URI e c : MONGO_URI (step e c) = MONGO_URI c.
Proof.
  destruct e as [|p|p err|n]; simpl; try done.
  - unfold ensureDb. destruct (unset (MONGO_URI c)); [done|].
    case_bool_decide; [done|]. by destruct (connectingPromise c).
  - by destruct (settled <$> attempts c !! p) as [[| |]|].
  - by destruct (settled <$> attempts c !! p) as [[| |]|].
Qed.

Lemma step_uri_set e c :
  (attempts c ≠ [] → unset (MONGO_URI c) = false) →
  attempts (step e c) ≠ [] → unset (MONGO_URI (step e c)) = false.
Proof.
  intros Hinv. rewrite step_MONGO_URI.
  destruct e as [|p|p err|n]; simpl; try done.
  - unfold ensureDb. destruct (unset (MONGO_URI c)); [done|]. done.
  - destruct (settled <$> attempts c !! p) as [[| |]|]; try done.
    simpl. intros Hne. apply Hinv. intros Hnil. by rewrite Hnil in Hne.
  - destruct (settled <$> attempts c !! p) as [[| |]|]; try done.
    simpl. intros Hne. apply Hinv. intros Hnil. by rewrite Hnil in Hne.
Qed.

Lemma run_events_uri_set es c :
  (attempts c ≠ [] → unset (MONGO_URI c) = false) →
  attempts (run_events es c) ≠ [] →
  unset (MONGO_URI (run_events es c)) = false.
Proof.
  revert c. induction es as [|e es IH]; intros c Hc; [done|].
  simpl. apply IH. by apply step_uri_set.
Qed.

(** Once the cached attempt has connected, an event changes [readyState]
    at most. *)
Lemma step_after_connected e c older a :
  guard_inv c → attempts c = older ++ [a] → settled a = Fulfilled true →
  attempts (step e c) = attempts c ∧
  connectingPromise (step e c) = connectingPromise c.
Proof.
  intros Hinv Heq Ha.
  assert (Hnopending : ∀ p, settled <$> attempts c !! p ≠ Some Pending).
  { intros p Hp.
    destruct (guard_inv_pending c p Hinv Hp)
      as (older' & a' & Heq' & _ & _ & _ & _ & Ha').
    rewrite Heq in Heq'. apply app_inj_tail in Heq' as [_ ->]. congruence. }
  assert (Hg : is_Some (connectingPromise c)).
  { destruct Hinv as [_ Hg]. destruct (connectingPromise c); [done|].
    rewrite Heq in Hg. apply Forall_app in Hg as [_ Hg].
    apply (proj1 (Forall_singleton _ _)) in Hg as [e' He']. congruence. }
  destruct e as [|p|p err|n]; simpl; try done.
  - unfold ensureDb. destruct (unset (MONGO_URI c)); [done|].
    case_bool_decide; [done|]. destruct Hg as [q Hq]. by rewrite Hq.
  - specialize (Hnopending p).
    by destruct (settled <$> attempts c !! p) as [[| |]|].
  - specialize (Hnopending p).
    by destruct (settled <$> attempts c !! p) as [[| |]|].
Qed.

Lemma run_after_connected es c older a :
  guard_inv c → attempts c = older ++ [a] → settled a = Fulfilled true →
  attempts (run_events es c) = attempts c ∧
  connectingPromise (run_events es c) = connectingPromise c.
Proof.
  revert c. induction es as [|e es IH]; intros c Hinv Heq Ha; [done|].
  simpl.
  destruct (step_after_connected e c older a Hinv Heq Ha) as [Hat Hgs].
  destruct (IH (step e c)) as [-> ->]; [|by rewrite Hat|done..].
  by apply guard_inv_step.
Qed.

(** X9.  Once an attempt has connected, nothing connects again: whatever
    calls and driver reports follow (a dropped connection among them), the
    attempts and the cached promise stay as they are, and every call of
    [ensureDb] changes nothing and gives [true] to its caller, also while
    [readyState] is not 1. *)
Theorem ensureDb_never_reconnects u es es' :
  let c := run_events es (init_conn u) in
  let c' := run_events es' c in
  Fulfilled true ∈ settled <$> attempts c →
  attempts c' = attempts c ∧
  connectingPromise c' = connectingPromise c ∧
  ∃ r, ensureDb c' = (r, c') ∧ awaited c' r = Some (inr true).
Proof.
  intros c c' Hin.
  assert (Hinv : guard_inv c) by apply guard_inv_run, guard_inv_init.
  assert (∃ older a, attempts c = older ++ [a] ∧ settled a = Fulfilled true ∧
                     connectingPromise c = Some (length older))
    as (older & a & Heq & Ha & Hg).
  { destruct Hinv as [_ Hg].
    apply list_elem_of_fmap in Hin as (b & Hb & Hbin).
    assert (Hrej : ∀ l, Forall rejected l → b ∈ l → False).
    { intros l Hl Hbl. rewrite Forall_forall in Hl.
      destruct (Hl b Hbl) as [e He]. congruence. }
    destruct (connectingPromise c) as [p|]; [|by destruct (Hrej _ Hg Hbin)].
    destruct Hg as (older & a & Heq & -> & Hold & _).
    exists older, a. rewrite Heq in Hbin.
    apply elem_of_app in Hbin as [Hbin|Hbin%list_elem_of_singleton];
      [by destruct (Hrej _ Hold Hbin)|]. by subst b. }
  destruct (run_after_connected es' c older a Hinv Heq Ha) as [Hat Hgs].
  fold c' in Hat, Hgs.
  split; [done|]. split; [done|].
  assert (unset (MONGO_URI c') = false) as Hu.
  { apply run_events_uri_set; [apply run_events_uri_set; done|].
    fold c'. rewrite Hat, Heq. by destruct older. }
  unfold ensureDb. rewrite Hu. case_bool_decide.
  - by eexists.
  - rewrite Hgs, Hg. eexists. split; [done|]. simpl.
    unfold promise_state. rewrite Hat, Heq.
    rewrite lookup_app_r, Nat.sub_diag by lia. simpl. by rewrite Ha.
Qed.

Lemma ensureDb_never_reconnects_witness :
  let u := Some "mongodb://db.example/weatherio" in
  let c := run_events [CallEnsureDb; Connected 0] (init_conn u) in
  let c' := run_events [ReadyState 0; CallEnsureDb; ConnectFailed 0 "x";
                        CallEnsureDb] c in
  attempts c' = attempts c ∧
  connectingPromise c' = connectingPromise c ∧
  ∃ r, ensureDb c' = (r, c') ∧ awaited c' r = Some (inr true).
Proof.
  intros u c c'.
  apply (ensureDb_never_reconnects u [CallEnsureDb; Connected 0]
           [ReadyState 0; CallEnsureDb; ConnectFailed 0 "x"; CallEnsureDb]).
  vm_compute. apply list_elem_of_here.
Defined.

(** * Registration and login *)

Lemma post_register_eq em pw env st :
  post_register em pw env st =
  if unset em || unset pw
  then (mkResponse 400 (JsonError "Email and password required"), st)
  else
    let failed w1 :=
      (mkResponse 500 (JsonError "registration-failed"),
       mkApp w1 (users st)) in
    match await_ensureDb (base env) (world st) with
    | (inl _, w1) => failed w1
    | (inr _, w1) =>
        match db_error (base env) FindOne with
        | Some _ => failed w1
        | None =>
            match User_findOne (default "" em) (users st) with
            | Some _ =>
                (mkResponse 400 (JsonError "User already exists"),
                 mkApp w1 (users st))
            | None =>
                match db_error (base env) Save with
                | Some _ => failed w1
                | None =>
                    (mkResponse 201
                       (JsonUser "Registration successful" (default "" em)),
                     mkApp w1
                       (users st ++
                        [mkUser (default "" em)
                                (bcrypt_hash env (default "" pw))
                                (now (base env))]))
                end
            end
        end
    end.
Proof.
  unfold post_register, catching.
  destruct (unset em || unset pw); [by destruct st|].
  unfold mbind, Handler_bind, on_world, users_call, hash_password, clock.
  destruct (await_ensureDb (base env) (world st)) as [[e|v] w1]; [done|].
  simpl. destruct (db_error (base env) FindOne); [done|]. simpl.
  destruct (User_findOne (default "" em) (users st)); [done|]. simpl.
  by destruct (db_error (base env) Save).
Qed.

Lemma post_login_eq em pw env st :
  post_login em pw env st =
  let failed w1 :=
    (mkResponse 500 (JsonError "login-failed"), mkApp w1 (users st)) in
  let invalid w1 :=
    (mkResponse 401 (JsonError "Invalid email or password"),
     mkApp w1 (users st)) in
  match await_ensureDb (base env) (world st) with
  | (inl _, w1) => failed w1
  | (inr _, w1) =>
      match db_error (base env) FindOne with
      | Some _ => failed w1
      | None =>
          match User_findOne em (users st) with
          | None => invalid w1
          | Some x =>
              if bcrypt_compare env pw (password x)
              then (mkResponse 200 (JsonUser "Login successful" (email x)),
                    mkApp w1 (users st))
              else invalid w1
          end
      end
  end.
Proof.
  unfold post_login, catching.
  unfold mbind, Handler_bind, on_world, users_call, compare_password.
  destruct (await_ensureDb (base env) (world st)) as [[e|v] w1]; [done|].
  simpl. destruct (db_error (base env) FindOne); [done|]. simpl.
  destruct (User_findOne em (users st)) as [x|]; [|done]. simpl.
  by destruct (bcrypt_compare env pw (password x)).
Qed.

Lemma User_findOne_None em us :
  User_findOne em us = None ↔ em ∉ email <$> us.
Proof.
  unfold User_findOne. induction us as [|x us IH]; simpl.
  - split; [intros _; apply not_elem_of_nil|done].
  - destruct (decide (email x = em)) as [He|He].
    + rewrite filter_cons_True by done. simpl. split; [done|].
      intros Hn. destruct Hn. rewrite <- He. apply list_elem_of_here.
    + rewrite filter_cons_False by done. rewrite IH, not_elem_of_cons.
      split; [auto|tauto].
Qed.

Lemma User_findOne_Some em us x :
  User_findOne em us = Some x → x ∈ us ∧ email x = em.
Proof.
  unfold User_findOne. intros Hh%head_Some_elem_of.
  by apply list_elem_of_filter in Hh as [? ?].
Qed.

Lemma User_findOne_app_new em us x :
  em ∉ email <$> us → email x = em → User_findOne em (us ++ [x]) = Some x.
Proof.
  intros Hn%User_findOne_None He. unfold User_findOne in *.
  rewrite filter_app. destruct (filter _ us); [|done]. simpl.
  by rewrite filter_cons_True.
Qed.

(** What [POST /register] answers and stores, case by case: it answers
    201 exactly when it has stored a user.  It stores at most one, behind the others, with
    the email given and the hash of the password given, and only when
    neither is absent or empty and no stored user has that email; the
    users stored before stay as they are, and so does the [Override]
    collection.  With an absent or empty field nothing at all is touched,
    not even the connection. *)
Lemma post_register_outcome em pw env st :
  let r := (post_register em pw env st).1 in
  let st' := (post_register em pw env st).2 in
  overrides (world st') = overrides (world st) ∧
  (status r ≠ 201 → users st' = users st) ∧
  (status r = 201 →
   ∃ e p, em = Some e ∧ pw = Some p ∧ e ≠ "" ∧ p ≠ "" ∧
          (e ∉ email <$> users st) ∧
          body r = JsonUser "Registration successful" e ∧
          users st' =
            users st ++ [mkUser e (bcrypt_hash env p) (now (base env))]) ∧
  ((unset em || unset pw) = true → st' = st ∧ status r = 400).
Proof.
  simpl. rewrite post_register_eq.
  destruct (unset em || unset pw) eqn:Hbad; [done|].
  apply orb_false_elim in Hbad as [Hem Hpw].
  destruct em as [e|]; [|done]. destruct pw as [p|]; [|done].
  simpl in Hem, Hpw. apply bool_decide_eq_false in Hem, Hpw.
  pose proof (await_ensureDb_overrides (base env) (world st)) as Ho.
  destruct (await_ensureDb (base env) (world st)) as [[err|v] w1];
    simpl in *; [done|].
  destruct (db_error (base env) FindOne); [done|].
  destruct (User_findOne e (users st)) eqn:Hfind; [done|].
  destruct (db_error (base env) Save); [done|]. simpl.
  split; [done|]. split; [done|]. split; [|done].
  intros _. exists e, p. apply User_findOne_None in Hfind. done.
Qed.

(** X10.  [POST /register] answers 201 exactly when it has stored a user,
    in every environment.  It stores at most one, behind the others, with
    the email given and the hash of the password given, and only when
    neither is absent or empty and no stored user has that email; the
    users stored before stay as they are, and so does the [Override]
    collection.  With an absent or empty field nothing at all is touched,
    not even the connection. *)
Theorem post_register_stores em pw env st :
  let r := (post_register em pw env st).1 in
  let st' := (post_register em pw env st).2 in
  overrides (world st') = overrides (world st) ∧
  (status r ≠ 201 → users st' = users st) ∧
  (status r = 201 →
   ∃ e p, em = Some e ∧ pw = Some p ∧ e ≠ "" ∧ p ≠ "" ∧
          (e ∉ email <$> users st) ∧
          body r = JsonUser "Registration successful" e ∧
          users st' =
            users st ++ [mkUser e (bcrypt_hash env p) (now (base env))]) ∧
  ((unset em || unset pw) = true → st' = st ∧ status r = 400).
Proof. apply post_register_outcome. Qed.

(** X11.  [POST /register] keeps the emails of the stored users pairwise
    different, in every environment. *)
Theorem post_register_unique em pw env st :
  NoDup (email <$> users st) →
  NoDup (email <$> users (post_register em pw env st).2).
Proof.
  intros Hnd.
  destruct (post_register_outcome em pw env st) as (_ & Hsame & Hnew & _).
  destruct (decide (status (post_register em pw env st).1 = 201)) as [H|H].
  - destruct (Hnew H) as (e & p & _ & _ & _ & _ & Hfresh & _ & ->).
    rewrite fmap_app. apply NoDup_app. split; [done|]. split.
    + intros x Hx [->|[]%elem_of_nil]%elem_of_cons. done.
    + apply NoDup_singleton.
  - by rewrite (Hsame H).
Qed.

Lemma post_register_unique_witness :
  NoDup (email <$> users (post_register (Some "a@x.com") (Some "pw") req_ok
                            (post_register (Some "a@x.com") (Some "other")
                               req_ok app_start).2).2).
Proof.
  apply post_register_unique. apply post_register_unique. constructor.
Defined.

(** X12.  An account cannot be taken over by registering its email again:
    when a stored user has the email, [POST /register] stores nothing and
    does not answer 201, whatever the password and the environment. *)
Theorem post_register_existing em pw env st x :
  x ∈ users st → em = Some (email x) →
  users (post_register em pw env st).2 = users st ∧
  status (post_register em pw env st).1 ≠ 201.
Proof.
  intros Hx ->.
  destruct (post_register_outcome (Some (email x)) pw env st)
    as (_ & Hsame & Hnew & _).
  assert (status (post_register (Some (email x)) pw env st).1 ≠ 201) as Hs.
  { intros H. destruct (Hnew H) as (e & p & [= <-] & _ & _ & _ & Hfresh & _).
    apply Hfresh, list_elem_of_fmap. by exists x. }
  split; [by apply Hsame|done].
Qed.

Lemma post_register_existing_witness :
  let st := (post_register (Some "a@x.com") (Some "pw") req_ok app_start).2 in
  users (post_register (Some "a@x.com") (Some "other") req_ok st).2
    = users st ∧
  status (post_register (Some "a@x.com") (Some "other") req_ok st).1 ≠ 201.
Proof.
  intros st.
  apply (post_register_existing (Some "a@x.com") (Some "other") req_ok st
           (mkUser "a@x.com" "$2a$10$pw" "2024-01-01T00:00:00.000Z")).
  - vm_compute. apply list_elem_of_here.
  - reflexivity.
Defined.

(** X13.  For a request whose [email] and [password] are strings:
    [POST /login] changes neither collection, in every environment, and
    answers 200 only for a stored user with the email given whose stored
    hash [bcrypt.compare] accepts for the password given; the body then
    names that email.  (A field that is not a string reaches the query as
    it is and is not covered.) *)
Theorem post_login_sound em pw env st :
  let r := (post_login em pw env st).1 in
  let st' := (post_login em pw env st).2 in
  users st' = users st ∧
  overrides (world st') = overrides (world st) ∧
  (status r = 200 →
   body r = JsonUser "Login successful" em ∧
   ∃ x, x ∈ users st ∧ email x = em ∧
        bcrypt_compare env pw (password x) = true).
Proof.
  simpl. rewrite post_login_eq.
  pose proof (await_ensureDb_overrides (base env) (world st)) as Ho.
  destruct (await_ensureDb (base env) (world st)) as [[err|v] w1];
    simpl in *; [done|].
  destruct (db_error (base env) FindOne); [done|].
  destruct (User_findOne em (users st)) as [x|] eqn:Hfind; [|done].
  apply User_findOne_Some in Hfind as [Hx He].
  destruct (bcrypt_compare env pw (password x)) eqn:Hcmp; [|done].
  simpl. split; [done|]. split; [done|]. intros _.
  split; [by rewrite He|]. by exists x.
Qed.

(** In a run of one request after the other, a connection that was there
    for one [await ensureDb()] is there for the next. *)
Lemma db_ready_stays env env2 w :
  db_ready env w → db_ready env2 (await_ensureDb env w).2.
Proof.
  assert (Hup : ∀ c coll, unset (MONGO_URI c) = false → readyState c = 1 →
                          db_ready env2 (mkWorld c coll)).
  { intros c coll Hu Hrs. exists true. unfold await_ensureDb, ensureDb.
    simpl. by rewrite Hu, Hrs. }
  intros [v Hv]. revert Hv. unfold await_ensureDb at 1 2, ensureDb.
  destruct (unset (MONGO_URI (conn w))) eqn:Hu; [done|].
  case_bool_decide as Hrs; [intros _; by apply Hup|].
  destruct (connectingPromise (conn w)) as [q|] eqn:Hq.
  - destruct (promise_state (conn w) q) as [|v'|e] eqn:Hps; [| |done].
    + destruct (connect_error env); [done|]. intros _. by apply Hup.
    + intros _. exists v'. unfold await_ensureDb, ensureDb. simpl.
      rewrite Hu, bool_decide_eq_false_2, Hq by done. by rewrite Hps.
  - unfold promise_state. simpl.
    rewrite lookup_app_r, Nat.sub_diag by lia. simpl.
    destruct (connect_error env); [done|]. intros _. by apply Hup.
Qed.

Lemma db_ready_conn env w w' : conn w = conn w' → db_ready env w → db_ready env w'.
Proof.
  intros Hc [v Hv]. exists v. revert Hv. unfold await_ensureDb. rewrite Hc.
  destruct (ensureDb (conn w')) as [r c].
  by destruct (match r with Throws _ => _ | _ => _ end).
Qed.

Lemma post_register_ready em pw env st :
  status (post_register em pw env st).1 = 201 →
  db_ready (base env) (world st) ∧
  world (post_register em pw env st).2
    = (await_ensureDb (base env) (world st)).2.
Proof.
  rewrite post_register_eq.
  destruct (unset em || unset pw); [done|].
  unfold db_ready.
  destruct (await_ensureDb (base env) (world st)) as [[err|v] w1];
    simpl; [done|].
  destruct (db_error (base env) FindOne); [done|].
  destruct (User_findOne _ _); [done|].
  destruct (db_error (base env) Save); [done|]. simpl.
  intros _. split; [by exists v|done].
Qed.

(** X14.  After a registration that answered 201, a login with the same
    email and password answers 200 'Login successful' for that email,
    provided the lookup goes through and [bcrypt.compare] accepts the hash
    that [bcrypt.hash] made; the connection the registration had is still
    there. *)
Theorem register_then_login e p env1 env2 st :
  status (post_register (Some e) (Some p) env1 st).1 = 201 →
  db_error (base env2) FindOne = None →
  bcrypt_compare env2 p (bcrypt_hash env1 p) = true →
  (post_login e p env2 (post_register (Some e) (Some p) env1 st).2).1
  = mkResponse 200 (JsonUser "Login successful" e).
Proof.
  intros H201 Hfo Hcmp.
  destruct (post_register_outcome (Some e) (Some p) env1 st)
    as (_ & _ & Hnew & _).
  destruct (Hnew H201)
    as (e' & p' & [= <-] & [= <-] & _ & _ & Hfresh & _ & Hus).
  destruct (post_register_ready _ _ _ _ H201) as [Hready Hw].
  pose proof (db_ready_stays (base env1) (base env2) _ Hready) as Hready2.
  rewrite <- Hw in Hready2.
  set (st1 := (post_register (Some e) (Some p) env1 st).2) in *.
  rewrite post_login_eq.
  destruct Hready2 as [v Hv].
  destruct (await_ensureDb (base env2) (world st1)) as [[err|v'] w2];
    simpl in *; [done|].
  rewrite Hfo, Hus.
  rewrite (User_findOne_app_new e (users st)
             (mkUser e (bcrypt_hash env1 p) (now (base env1))) Hfresh eq_refl).
  simpl.
  by rewrite Hcmp.
Qed.

Lemma register_then_login_witness :
  (post_login "a@x.com" "pw" req_ok
     (post_register (Some "a@x.com") (Some "pw") req_ok app_start).2).1
  = mkResponse 200 (JsonUser "Login successful" "a@x.com").
Proof.
  apply (register_then_login "a@x.com" "pw" req_ok req_ok app_start).
  - reflexivity.
  - reflexivity.
  - reflexivity.
Defined.

Lemma post_register_stores_witness :
  let r := (post_register (Some "a@x.com") (Some "pw") req_ok app_start).1 in
  let st' := (post_register (Some "a@x.com") (Some "pw") req_ok app_start).2 in
  ∃ e p, Some "a@x.com" = Some e ∧ Some "pw" = Some p ∧ e ≠ "" ∧ p ≠ "" ∧
         (e ∉ email <$> users app_start) ∧
         body r = JsonUser "Registration successful" e ∧
         users st' =
           users app_start ++
           [mkUser e (bcrypt_hash req_ok p) (now (base req_ok))].
Proof.
  intros r st'.
  destruct (post_register_stores (Some "a@x.com") (Some "pw") req_ok
              app_start) as (_ & _ & H & _).
  apply H. reflexivity.
Defined.

Lemma post_login_sound_witness :
  let st := (post_register (Some "a@x.com") (Some "pw") req_ok app_start).2 in
  body (post_login "a@x.com" "pw" req_ok st).1
    = JsonUser "Login successful" "a@x.com" ∧
  ∃ x, x ∈ users st ∧ email x = "a@x.com" ∧
       bcrypt_compare req_ok "pw" (password x) = true.
Proof.
  intros st.
  destruct (post_login_sound "a@x.com" "pw" req_ok st) as (_ & _ & H).
  apply H. reflexivity.
Defined.

(** * The override routes *)

Lemma get_override_eq la lo da em env st :
  get_override la lo da em env st =
  (match (getLatestOverride la lo da em (base env) (world st)).1 with
   | inl _ => mkResponse 500 (JsonError "get-override-failed")
   | inr (Some d) => mkResponse 200 (JsonOverride d)
   | inr None => mkResponse 200 JsonEmpty
   end,
   mkApp (getLatestOverride la lo da em (base env) (world st)).2 (users st)).
Proof.
  unfold get_override, catching, mbind, Handler_bind, on_world.
  by destruct (getLatestOverride la lo da em (base env) (world st))
    as [[e|[d|]] w1].
Qed.

Lemma post_override_eq la lo da values em env st :
  post_override la lo da values em env st =
  (match (addOverride la lo da values em (base env) (world st)).1 with
   | inl _ => mkResponse 500 (JsonError "add-override-failed")
   | inr d => mkResponse 201 (JsonOverride d)
   end,
   mkApp (addOverride la lo da values em (base env) (world st)).2 (users st)).
Proof.
  unfold post_override, catching, mbind, Handler_bind, on_world.
  by destruct (addOverride la lo da values em (base env) (world st))
    as [[e|d] w1].
Qed.

Lemma delete_override_eq la lo da em env st :
  delete_override la lo da em env st =
  (match (removeOverride la lo da em (base env) (world st)).1 with
   | inl _ => mkResponse 500 (JsonError "remove-override-failed")
   | inr (Some _) => mkResponse 200 (JsonRemoved true)
   | inr None => mkResponse 200 (JsonRemoved false)
   end,
   mkApp (removeOverride la lo da em (base env) (world st)).2 (users st)).
Proof.
  unfold delete_override, catching, mbind, Handler_bind, on_world.
  by destruct (removeOverride la lo da em (base env) (world st))
    as [[e|[d|]] w1].
Qed.

(** X15.  For a request whose [lat], [lon], [date] and [email] are
    strings: [DELETE /override] tells the truth, in every environment: it
    answers [{ removed: true }] exactly when the collection has changed,
    and then the key had an active document before and the status is 200;
    the users are not touched.  (A field that is not a string reaches the
    filter as it is and is not covered.) *)
Theorem delete_override_truthful la lo da em env st :
  let r := (delete_override la lo da em env st).1 in
  let st' := (delete_override la lo da em env st).2 in
  users st' = users st ∧
  (body r = JsonRemoved true ↔
   overrides (world st') ≠ overrides (world st)) ∧
  (body r = JsonRemoved true →
   status r = 200 ∧ active_of_key la lo da em (overrides (world st)) ≠ []).
Proof.
  simpl. rewrite delete_override_eq. simpl. split; [done|].
  rewrite removeOverride_eq.
  pose proof (await_ensureDb_overrides (base env) (world st)) as Ho.
  destruct (await_ensureDb (base env) (world st)) as [[err|v] w1];
    simpl in *.
  { rewrite Ho. split; [split; [done|by intros []]|done]. }
  destruct (db_error (base env) FindOneAndUpdate); simpl.
  { rewrite Ho. split; [split; [done|by intros []]|done]. }
  rewrite Ho.
  destruct (findOneAndUpdate _ _ (overrides (world st))) as [[r|] coll]
    eqn:Hf; simpl.
  - apply findOneAndUpdate_Some in Hf as (i & d & Hi & Hd & _ & _ & ->).
    assert (<[i:=set_active false d]> (overrides (world st))
            ≠ overrides (world st)) as Hne.
    { intros Heq. apply (f_equal (λ l, l !! i)) in Heq.
      rewrite list_lookup_insert_eq in Heq by by eapply lookup_lt_Some.
      rewrite Hi in Heq. injection Heq as Heq.
      apply matches_active_key in Hd as [_ Ha].
      apply (f_equal active) in Heq. simpl in Heq. congruence. }
    split; [done|]. intros _. split; [done|]. intros Hnil.
    apply list_elem_of_lookup_2 in Hi.
    by destruct (filter_nil_not_elem_of _ _ d Hnil Hi).
  - apply findOneAndUpdate_None in Hf as [-> _].
    split; [split; [done|by intros []]|done].
Qed.

Lemma delete_override_truthful_witness :
  let st := mkApp world_two_active [] in
  let r := (delete_override "12.0" "77.0" "2024-01-01" "a@x.com" req_ok
              st).1 in
  status r = 200 ∧
  active_of_key "12.0" "77.0" "2024-01-01" "a@x.com" (overrides (world st))
    ≠ [].
Proof.
  intros st r.
  destruct (delete_override_truthful "12.0" "77.0" "2024-01-01" "a@x.com"
              req_ok st) as (_ & _ & H).
  apply H. reflexivity.
Defined.

(** X16.  From a connectable state and with nothing rejecting, the
    requests POST, GET, DELETE, GET on [/override] for one key answer, in
    this order: 201 with the new document, 200 with that same document,
    200 with [{ removed: true }], and 200 with [{}]. *)
Theorem override_routes_in_a_row la lo da values em e1 e2 e3 e4 st :
  connectable (conn (world st)) →
  fault_free (base e1) → fault_free (base e2) →
  fault_free (base e3) → fault_free (base e4) →
  let st1 := (post_override la lo da values em e1 st).2 in
  let st2 := (get_override la lo da em e2 st1).2 in
  let st3 := (delete_override la lo da em e3 st2).2 in
  ∃ d, (post_override la lo da values em e1 st).1
         = mkResponse 201 (JsonOverride d) ∧
       (get_override la lo da em e2 st1).1
         = mkResponse 200 (JsonOverride d) ∧
       (delete_override la lo da em e3 st2).1
         = mkResponse 200 (JsonRemoved true) ∧
       (get_override la lo da em e4 st3).1 = mkResponse 200 JsonEmpty.
Proof.
  intros Hc [Hce1 Hdb1] [Hce2 Hdb2] [Hce3 Hdb3] [Hce4 Hdb4]. simpl.
  rewrite post_override_eq.
  destruct (connectable_ready (base e1) (world st) Hc Hce1) as [Hr1 Hc1].
  rewrite (addOverride_ok la lo da values em _ _ Hr1 Hdb1). simpl.
  set (d := newOverride la lo da values em (base e1) (overrides (world st))).
  set (upd := updateMany (by_key la lo da em) (set_active false)
                         (overrides (world st))).
  set (w1 := mkWorld _ (upd ++ [d])).
  exists d. split; [done|].
  assert (Hact : active_of_key la lo da em (upd ++ [d]) = [d])
    by apply active_of_key_after_add.
  rewrite get_override_eq. simpl.
  destruct (connectable_ready (base e2) w1 Hc1 Hce2) as [Hr2 Hc2].
  rewrite (getLatestOverride_ok la lo da em _ _ Hr2 (Hdb2 _)). simpl.
  unfold findOne_sort_version at 1.
  fold (active_of_key la lo da em (upd ++ [d])). rewrite Hact. simpl.
  split; [done|].
  set (w2 := mkWorld _ (upd ++ [d])).
  rewrite delete_override_eq. simpl.
  destruct (connectable_ready (base e3) w2 Hc2 Hce3) as [Hr3 Hc3].
  rewrite (removeOverride_ok la lo da em _ _ Hr3 (Hdb3 _)). simpl.
  rewrite findOneAndUpdate_app_skip by apply updateMany_no_active.
  simpl. rewrite decide_True by apply newOverride_matches. simpl.
  split; [done|].
  set (w3 := mkWorld _ (upd ++ [set_active false d])).
  rewrite get_override_eq. simpl.
  destruct (connectable_ready (base e4) w3 Hc3 Hce4) as [Hr4 _].
  rewrite (getLatestOverride_ok la lo da em _ _ Hr4 (Hdb4 _)). simpl.
  assert (findOne_sort_version (by_key_active la lo da em)
            (upd ++ [set_active false d]) = None) as ->; [|done].
  apply findOne_sort_version_None. rewrite filter_app.
  fold (active_of_key la lo da em upd). unfold upd.
  rewrite updateMany_no_active. simpl.
  rewrite filter_cons_False; [done|].
  rewrite matches_active_key. by intros [_ ?].
Qed.

Lemma override_routes_in_a_row_witness :
  let st := mkApp world_two_active [] in
  let st1 := (post_override "12.0" "77.0" "2024-01-01" (JNum 30) "a@x.com"
                req_ok st).2 in
  let st2 := (get_override "12.0" "77.0" "2024-01-01" "a@x.com" req_ok
                st1).2 in
  let st3 := (delete_override "12.0" "77.0" "2024-01-01" "a@x.com" req_ok
                st2).2 in
  ∃ d, (post_override "12.0" "77.0" "2024-01-01" (JNum 30) "a@x.com" req_ok
          st).1 = mkResponse 201 (JsonOverride d) ∧
       (get_override "12.0" "77.0" "2024-01-01" "a@x.com" req_ok st1).1
         = mkResponse 200 (JsonOverride d) ∧
       (delete_override "12.0" "77.0" "2024-01-01" "a@x.com" req_ok st2).1
         = mkResponse 200 (JsonRemoved true) ∧
       (get_override "12.0" "77.0" "2024-01-01" "a@x.com" req_ok st3).1
         = mkResponse 200 JsonEmpty.
Proof.
  intros st.
  apply (override_routes_in_a_row "12.0" "77.0" "2024-01-01" (JNum 30)
           "a@x.com" req_ok req_ok req_ok req_ok st).
  - apply init_conn_connectable. discriminate.
  - split; [reflexivity|intros c; reflexivity].
  - split; [reflexivity|intros c; reflexivity].
  - split; [reflexivity|intros c; reflexivity].
  - split; [reflexivity|intros c; reflexivity].
Defined.

(** * The cold-start log *)

(** X17.  The cold-start line shows the first 12 UTF-16 code units of
    [MONGO_URI] and its length and nothing else of it: two URIs that agree
    on their first 12 code units and in length give the same line. *)
Theorem masked_hides_tail (p s1 s2 : list N) :
  length p = 12 → length s1 = length s2 →
  masked (Some (p ++ s1)) = masked (Some (p ++ s2)) ∧
  masked (Some (p ++ s1))
    = p ++ js "... (len=" ++ js (pretty (12 + length s1)) ++ js ")".
Proof.
  intros Hp Hs.
  assert (∀ s, masked (Some (p ++ s))
               = p ++ js "... (len=" ++ js (pretty (12 + length s))
                 ++ js ")") as Hm.
  { intros s. unfold masked. simpl.
    rewrite bool_decide_eq_false_2.
    - rewrite <- Hp at 1. by rewrite take_app_length, length_app, Hp.
    - intros Heq. apply (f_equal length) in Heq.
      rewrite length_app, Hp in Heq. done. }
  split; [by rewrite !Hm, Hs|apply Hm].
Qed.

Lemma masked_hides_tail_witness :
  masked (Some ((js "mongodb://" ++ [233%N; 97%N]) ++ js "dmin:secret@host"))
    = masked (Some ((js "mongodb://" ++ [233%N; 97%N])
                    ++ js "lice:hunter@host")) ∧
  masked (Some ((js "mongodb://" ++ [233%N; 97%N]) ++ js "dmin:secret@host"))
    = (js "mongodb://" ++ [233%N; 97%N]) ++ js "... (len=" ++
      js (pretty (12 + length (js "dmin:secret@host"))) ++ js ")".
Proof.
  apply (masked_hides_tail (js "mongodb://" ++ [233%N; 97%N])
           (js "dmin:secret@host") (js "lice:hunter@host")); reflexivity.
Defined.

(** A URI with a letter outside ASCII before position 12: the line stops
    after 12 code units and counts 13. *)
Example masked_non_ascii :
  masked (Some (js "mongodb://" ++ [233%N] ++ js "ab"))
  = js "mongodb://" ++ [233%N] ++ js "a... (len=13)".
Proof. vm_compute. reflexivity. Qed.

(** Without a URI, or with an empty one. *)
Example masked_missing :
  masked None = js "(missing)" ∧ masked (Some []) = js "(missing)".
Proof. vm_compute. auto. Qed.
